(** * pelita: the message protocol and the game master

    A shallow embedding of [pelita/messaging/messages.py] and
    [pelita/game_master.py].  Python objects become records and inductive
    values, [dict]s with string keys become [gmap string _], raised
    exceptions become the [Raise] branch of [pyres], and calls to
    the collaborators of the game master (players, viewers, the universe)
    are recorded in an explicit trace.  The universe is a value that is
    passed along: [self.universe.copy()] and [copy.deepcopy(events)] are
    the value itself.  The code is Python 2 ([dict.keys()] is a list). *)

From stdpp Require Import gmap strings list fin_maps.

(** ** Results of fallible Python code *)

Inductive pyres (E A : Type) : Type :=
| Ok (a : A)
| Raise (e : E).
Arguments Ok {E A} a.
Arguments Raise {E A} e.

(* ===================================================================== *)
(** ** pelita/messaging/messages.py *)
(* ===================================================================== *)

Module Messages.

#[local] Open Scope string_scope.
#[local] Open Scope list_scope.

(** The values a message field can hold: whatever a JSON-compatible
    Python object can be.  [VNone] is Python's [None]. *)
#[warnings="-register-all"] Inductive value : Type :=
| VNone
| VBool (b : bool)
| VInt (z : Z)
| VStr (s : string)
| VList (l : list value)
| VDict (l : list (string * value)).

(** The exceptions this module can raise.  [ValueError] carries the
    object that could not be converted (it is formatted into the message
    with [%r]). *)
Inductive exn : Type :=
| TypeError
| AttributeError
| ValueError (d : gmap string value).

Section WithChannel.

(** The object stored in [Query.channel]: anything with a [put] method. *)
Context {Channel : Type}.

(** The four message classes.  A [Query] also has the attribute
    [channel], set to [None] by [__init__]. *)
Inductive message : Type :=
| Query (method params id : value) (channel : option Channel)
| Notification (method params : value)
| Response (result id : value)
| Error (error id : value).

(** [__init__] of each class. *)
Definition Query_init (method params id : value) : message :=
  Query method params id None.
Definition Notification_init (method params : value) : message :=
  Notification method params.
Definition Response_init (result id : value) : message :=
  Response result id.
Definition Error_init (error id : value) : message :=
  Error error id.

(** [q.channel = ch] *)
Definition set_channel (m : message) (ch : Channel) : message :=
  match m with
  | Query method params id _ => Query method params id (Some ch)
  | _ => m
  end.

(** Property [is_response]. [self.id is not None] for an [Error]. *)
Definition is_response (m : message) : bool :=
  match m with
  | Query _ _ _ _ => false
  | Notification _ _ => false
  | Response _ _ => true
  | Error _ id => match id with VNone => false | _ => true end
  end.

(** Property [wants_response]. *)
Definition wants_response (m : message) : bool :=
  match m with
  | Query _ _ _ _ => true
  | _ => false
  end.

(** Property [dict]. *)
Definition dict (m : message) : gmap string value :=
  match m with
  | Query method params id _ =>
      {[ "method" := method; "params" := params; "id" := id ]}
  | Notification method params =>
      {[ "method" := method; "params" := params ]}
  | Response result id =>
      {[ "result" := result; "id" := id ]}
  | Error error id =>
      {[ "error" := error; "id" := id ]}
  end.

(** *** Methods of [Query] *)

(** [Query.response] and [Query.error_msg]; on the other classes the
    attribute does not exist. *)
Definition response (q : message) (result : value) : pyres exn message :=
  match q with
  | Query _ _ id _ => Ok (Response_init result id)
  | _ => Raise AttributeError
  end.

Definition error_msg (q : message) (error : value) : pyres exn message :=
  match q with
  | Query _ _ id _ => Ok (Error_init error id)
  | _ => Raise AttributeError
  end.

(** The effect of [channel.put(msg)]: the message handed to the channel. *)
Inductive delivery : Type :=
| Put (ch : Channel) (msg : message).

(** [Query.reply]: [self.channel.put(self.response(result))].  The
    attribute [put] is looked up on [self.channel] before the argument is
    evaluated; on [None] the lookup raises [AttributeError]. *)
Definition reply (q : message) (result : value) : pyres exn delivery :=
  match q with
  | Query _ _ _ channel =>
      match channel with
      | None => Raise AttributeError
      | Some ch =>
          match response q result with
          | Ok msg => Ok (Put ch msg)
          | Raise e => Raise e
          end
      end
  | _ => Raise AttributeError
  end.

(** [Query.reply_error]: [self.channel.put(self.error_msg(error))]. *)
Definition reply_error (q : message) (error : value) : pyres exn delivery :=
  match q with
  | Query _ _ _ channel =>
      match channel with
      | None => Raise AttributeError
      | Some ch =>
          match error_msg q error with
          | Ok msg => Ok (Put ch msg)
          | Raise e => Raise e
          end
      end
  | _ => Raise AttributeError
  end.

(** *** Loading a message from a dict *)

Inductive msg_class : Type := CQuery | CNotification | CResponse | CError.

(** The parameters of each [__init__], after [self]. *)
Definition init_params (cls : msg_class) : list string :=
  match cls with
  | CQuery => ["method"; "params"; "id"]
  | CNotification => ["method"; "params"]
  | CResponse => ["result"; "id"]
  | CError => ["error"; "id"]
  end.

(** Binding the keyword arguments of [cls( **d )] to the parameters
    [params], none of which has a default: a key that names no parameter
    is an unexpected keyword argument (the key ["self"] collides with the
    bound instance), a parameter without a key is a missing argument.
    Both raise [TypeError], here [None]. *)
Definition bind_kwargs (params : list string) (d : gmap string value)
  : option (list value) :=
  if bool_decide (dom d ⊆ list_to_set params)
  then mapM (λ p, d !! p) params
  else None.

(** [__init__] of the class [cls] on the bound arguments. *)
Definition init (cls : msg_class) (args : list value) : pyres exn message :=
  match cls, args with
  | CQuery, [method; params; id] => Ok (Query_init method params id)
  | CNotification, [method; params] => Ok (Notification_init method params)
  | CResponse, [res; id] => Ok (Response_init res id)
  | CError, [error; id] => Ok (Error_init error id)
  | _, _ => Raise TypeError
  end.

(** [cls( **d )] *)
Definition construct (cls : msg_class) (d : gmap string value)
  : pyres exn message :=
  match bind_kwargs (init_params cls) d with
  | Some args => init cls args
  | None => Raise TypeError
  end.

Definition _defined_messages : list msg_class :=
  [CQuery; CNotification; CResponse; CError].

(** The loop of [_load_message] over the classes still to try. *)
Fixpoint load_from (classes : list msg_class) (d : gmap string value)
  : pyres exn message :=
  match classes with
  | [] => Raise (ValueError d)
  | cls :: rest =>
      match construct cls d with
      | Ok m => Ok m
      | Raise TypeError => load_from rest d
      | Raise e => Raise e
      end
  end.

Definition _load_message (d : gmap string value) : pyres exn message :=
  load_from _defined_messages d.

(** [BaseMessage.load] *)
Definition load (d : gmap string value) : pyres exn message :=
  _load_message d.

(** The class of a message object. *)
Definition class_of (m : message) : msg_class :=
  match m with
  | Query _ _ _ _ => CQuery
  | Notification _ _ => CNotification
  | Response _ _ => CResponse
  | Error _ _ => CError
  end.

(** The fields of a message that its [dict] carries, in the order of
    [init_params]. *)
Definition fields (m : message) : list value :=
  match m with
  | Query method params id _ => [method; params; id]
  | Notification method params => [method; params]
  | Response res id => [res; id]
  | Error error id => [error; id]
  end.

End WithChannel.
Arguments message : clear implicits.
Arguments delivery : clear implicits.

End Messages.

(* ===================================================================== *)
(** ** pelita/game_master.py *)
(* ===================================================================== *)

Module GameMaster.

#[local] Open Scope string_scope.
#[local] Open Scope list_scope.

(** The two uses of [IndexError]: the one [play] raises itself, with the
    two numbers formatted into its message, and a list index out of
    range. *)
Inductive index_error : Type :=
| TeamMismatch (registered universe_teams : nat)
| OutOfRange.

Inductive exn : Type :=
| NameError (name : string)
| IndexError (why : index_error)
| ValueError
| IllegalMoveException
| PlayerTimeout
| PlayerDisconnected.

(** Modelled from the spec: the bot objects of [pelita.datamodel], which
    is not part of the source tree.  A bot has an identity, an owning
    team and a current position. *)
Record Bot (Pos : Type) : Type := {
  index : nat;
  team_index : nat;
  current_pos : Pos
}.
Arguments index {Pos} b.
Arguments team_index {Pos} b.
Arguments current_pos {Pos} b.

(** Modelled from the spec: the event classes of [pelita.datamodel]: a
    closed tagged type with the two tags the game master names and the
    events of the board (movement and its side effects). *)
Inductive UniverseEvent (BoardEvent : Type) : Type :=
| TeamWins (winning_team_index : nat)
| TimeoutEvent (team_index : nat)
| OtherEvent (e : BoardEvent).
Arguments TeamWins {BoardEvent} winning_team_index.
Arguments TimeoutEvent {BoardEvent} team_index.
Arguments OtherEvent {BoardEvent} e.

(** The collaborators of the game master: the universe, the player
    teams, the viewers and the random generator.  [World] is the state
    of everything outside the game master that a call can change (what
    players and viewers remember, the state of the generator).

    - [move_bot] either changes the universe and returns the events, or
      raises and leaves the universe as it was;
    - [get_legal_moves] returns a dict from moves to positions;
    - [_get_move] is given a copy of the universe: it cannot change the
      live one, only the world;
    - [observe] is given copies and returns normally;
    - [random] is the next draw of the generator. *)
Class Collaborators : Type := {
  Universe : Type;
  Move : Type;
  Pos : Type;
  Team : Type;
  BoardEvent : Type;
  PlayerTeam : Type;
  Viewer : Type;
  World : Type;
  Move_eq_dec :: EqDecision Move;
  Move_countable :: Countable Move;
  stop : Move;
  bots : Universe → list (Bot Pos);
  teams : Universe → list Team;
  move_bot : Universe → nat → Move →
             pyres exn (list (UniverseEvent BoardEvent) * Universe);
  get_legal_moves : Universe → Pos → gmap Move Pos;
  _get_move : PlayerTeam → nat → Universe → World → pyres exn Move * World;
  observe : Viewer → Z → nat → Universe →
            list (UniverseEvent BoardEvent) → World → World;
  random : World → nat * World
}.

Section WithCollaborators.
Context {C : Collaborators}.

Abbreviation Event := (UniverseEvent BoardEvent).

(** Modelled from the spec: [TypeAwareList.__contains__] given a class
    and [TypeAwareList.filter_type] ([pelita.containers] is not part of
    the source tree): membership and filtering by the tag of the event. *)
Definition is_TeamWins (e : Event) : bool :=
  match e with TeamWins _ => true | _ => false end.

Definition TeamWins_in (events : list Event) : bool :=
  existsb is_TeamWins events.

Definition filter_TimeoutEvent (events : list Event) : list nat :=
  omap (λ e, match e with TimeoutEvent t => Some t | _ => None end) events.

(** The attributes of a [GameMaster] object, except [universe]: the
    universe is the state that the code below reads and changes. *)
Record GameMaster : Type := {
  game_time : Z;
  number_bots : nat;
  player_teams : list PlayerTeam;
  viewers : list Viewer
}.

(** What a run of the game master does to its collaborators, in order.
    [BotMoved i events] is not a call: it records that iteration [i] of
    [play_round] has reached its broadcast with this value of [events]. *)
Inductive action : Type :=
| GetMove (team : PlayerTeam) (bot_index : nat) (snapshot : Universe)
| MoveBot (i : nat) (move : Move)
| BotMoved (i : nat) (events : list Event)
| Observe (v : Viewer) (current_game_time : Z) (i : nat)
          (snapshot : Universe) (events : list Event).

(** The outcome of running a piece of the game master: what it returned
    or raised, the universe and the world it left, and what it did. *)
Record run (A : Type) : Type := Run {
  returned : pyres exn A;
  universe_after : Universe;
  world_after : World;
  trace : list action
}.
Arguments Run {A} returned universe_after world_after trace.
Arguments returned {A} r.
Arguments universe_after {A} r.
Arguments world_after {A} r.
Arguments trace {A} r.

(** Code that reads and changes [self.universe] and the world, logs its
    calls and may raise. *)
Definition M (A : Type) : Type := Universe → World → run A.

Definition ret {A} (a : A) : M A := λ u w, Run (Ok a) u w [].

Definition raise {A} (e : exn) : M A := λ u w, Run (Raise e) u w [].

Definition bind {A B} (m : M A) (k : A → M B) : M B := λ u w,
  let r := m u w in
  match returned r with
  | Raise e => Run (Raise e) (universe_after r) (world_after r) (trace r)
  | Ok a =>
      let r' := k a (universe_after r) (world_after r) in
      Run (returned r') (universe_after r') (world_after r')
          (trace r ++ trace r')
  end.

(** [try: m  except ...: h e] where [h] decides what each exception
    does (a handler that does not match re-raises). *)
Definition try_except {A} (m : M A) (h : exn → M A) : M A := λ u w,
  let r := m u w in
  match returned r with
  | Ok a => r
  | Raise e =>
      let r' := h e (universe_after r) (world_after r) in
      Run (returned r') (universe_after r') (world_after r')
          (trace r ++ trace r')
  end.

#[export] Instance M_ret : MRet M := @ret.
#[export] Instance M_bind : MBind M := λ A B k m, bind m k.

(** [self.universe] *)
Definition get_universe : M Universe := λ u w, Run (Ok u) u w [].

(** [log a] records one entry of the trace. *)
Definition log (a : action) : M unit := λ u w, Run (Ok tt) u w [a].

(** A lookup [l[i]] in a Python list, for [i] not negative. *)
Definition getitem {A} (l : list A) (i : nat) : M A :=
  match l !! i with
  | Some x => ret x
  | None => raise (IndexError OutOfRange)
  end.

(** [player_team._get_move(bot_index, self.universe.copy())] *)
Definition call_get_move (player_team : PlayerTeam) (bot_index : nat)
  : M Move := λ u w,
  let '(r, w') := _get_move player_team bot_index u w in
  Run r u w' [GetMove player_team bot_index u].

(** [self.universe.move_bot(i, move)] *)
Definition call_move_bot (i : nat) (move : Move) : M (list Event) := λ u w,
  match move_bot u i move with
  | Ok (events, u') => Run (Ok events) u' w [MoveBot i move]
  | Raise e => Run (Raise e) u w [MoveBot i move]
  end.

(** [v.observe(current_game_time, i, self.universe.copy(),
    copy.deepcopy(events))] *)
Definition call_observe (v : Viewer) (current_game_time : Z) (i : nat)
    (events : list Event) : M unit := λ u w,
  Run (Ok tt) u (observe v current_game_time i u events w)
      [Observe v current_game_time i u events].

(** [d.keys()], a list in Python 2, in the order of the dict. *)
Definition keys (d : gmap Move Pos) : list Move := (map_to_list d).*1.

(** [l.remove(x)]: drops the first [x]; [None] is the [ValueError] of an
    absent [x]. *)
Fixpoint remove (x : Move) (l : list Move) : option (list Move) :=
  match l with
  | [] => None
  | y :: l' =>
      if decide (x = y) then Some l'
      else match remove x l' with
           | Some l'' => Some (y :: l'')
           | None => None
           end
  end.

(** [random.choice(seq)] is [seq[int(random() * len(seq))]]: the draw
    [r] of the generator picks the index [r mod len(seq)], and an empty
    [seq] raises [IndexError]. *)
Definition random_choice (seq : list Move) : M Move := λ u w,
  let '(r, w') := random w in
  match seq !! (r mod length seq) with
  | Some x => Run (Ok x) u w' []
  | None => Run (Raise (IndexError OutOfRange)) u w' []
  end.

(** [not n] for an int [n], as the int a bool is ([True == 1]). *)
Definition py_not (n : nat) : nat := if decide (n = 0) then 1 else 0.

(** The names bound in the namespace of the module [game_master]: its
    imports, its assignment and its three classes. *)
Definition module_globals : list string :=
  ["copy"; "random"; "TypeAwareList"; "datamodel"; "AbstractViewer";
   "__docformat__"; "PlayerTimeout"; "PlayerDisconnected"; "GameMaster"].

(** Evaluating a global name: an unbound one raises [NameError]. *)
Definition load_global (name : string) : M unit :=
  if bool_decide (name ∈ module_globals) then ret tt
  else raise (NameError name).

(** *** [play_round], lines 104 to 132 *)

(** The body of the first handler (lines 110 to 117). *)
Definition fallback_handler (i : nat) (bot : Bot Pos) : M (list Event) :=
  u ← get_universe;
  let moves := keys (get_legal_moves u (current_pos bot)) in
  match remove stop moves with
  | None => raise ValueError
  | Some moves =>
      let moves := match moves with [] => [stop] | _ => moves end in
      move ← random_choice moves;
      events ← call_move_bot i move;
      ret (events ++ [TimeoutEvent (team_index bot)])
  end.

(** The body of the second handler (lines 119 to 122). *)
Definition disconnected_handler (bot : Bot Pos) : M (list Event) :=
  let other_team_idx := py_not (team_index bot) in
  ret [TeamWins other_team_idx].

(** The [except] clauses, tried in order once the body has raised [e].
    The expression of a clause is evaluated when the clause is tried:
    the first one is the tuple [(uni.IllegalMoveException,
    PlayerTimeout)] and starts with the global name [uni].  An exception
    that no clause matches goes on. *)
Definition except_clauses (i : nat) (bot : Bot Pos) (e : exn)
  : M (list Event) :=
  load_global "uni";;
  match e with
  | IllegalMoveException | PlayerTimeout => fallback_handler i bot
  | PlayerDisconnected => disconnected_handler bot
  | _ => raise e
  end.

(** The [try] statement (lines 106 to 122): the value of [events] for
    one bot. *)
Definition resolve (player_team : PlayerTeam) (i : nat) (bot : Bot Pos)
  : M (list Event) :=
  try_except
    (move ← call_get_move player_team (index bot);
     call_move_bot i move)
    (except_clauses i bot).

(** Lines 124 to 126: the team of every [TimeoutEvent] is looked up in
    [self.universe.teams]; nothing is done with it. *)
Fixpoint lookup_timeout_teams (team_indices : list nat) : M unit :=
  match team_indices with
  | [] => ret tt
  | t :: rest =>
      u ← get_universe;
      getitem (teams u) t;;
      lookup_timeout_teams rest
  end.

(** Lines 128 and 129. *)
Fixpoint broadcast (vs : list Viewer) (current_game_time : Z) (i : nat)
    (events : list Event) : M unit :=
  match vs with
  | [] => ret tt
  | v :: rest =>
      call_observe v current_game_time i events;;
      broadcast rest current_game_time i events
  end.

(** One iteration of the loop, up to the test of line 130. *)
Definition bot_move (gm : GameMaster) (current_game_time : Z) (i : nat)
    (bot : Bot Pos) : M (list Event) :=
  player_team ← getitem (player_teams gm) (team_index bot);
  events ← resolve player_team i bot;
  lookup_timeout_teams (filter_TimeoutEvent events);;
  log (BotMoved i events);;
  broadcast (viewers gm) current_game_time i events;;
  ret events.

(** The loop over [enumerate(self.universe.bots)], from the positions
    still to visit.  The bot at a position is read from the live
    universe; a position past the end of the list ends the loop, as the
    list iterator does. *)
Fixpoint play_round_from (gm : GameMaster) (current_game_time : Z)
    (positions : list nat) : M bool :=
  match positions with
  | [] => ret true
  | i :: rest =>
      u ← get_universe;
      match bots u !! i with
      | None => ret true
      | Some bot =>
          events ← bot_move gm current_game_time i bot;
          if TeamWins_in events then ret false
          else play_round_from gm current_game_time rest
      end
  end.

Definition play_round (gm : GameMaster) (current_game_time : Z) : M bool :=
  u ← get_universe;
  play_round_from gm current_game_time (seq 0 (length (bots u))).

(** *** [play] *)

(** [range(n)] *)
Definition range (n : Z) : list Z := Z.of_nat <$> seq 0 (Z.to_nat n).

Fixpoint play_rounds (gm : GameMaster) (rounds : list Z) : M unit :=
  match rounds with
  | [] => ret tt
  | gt :: rest =>
      continue ← play_round gm gt;
      if (continue : bool) then play_rounds gm rest else ret tt
  end.

Definition play (gm : GameMaster) : M unit :=
  u ← get_universe;
  if decide (length (player_teams gm) ≠ length (teams u))
  then raise (IndexError (TeamMismatch (length (player_teams gm))
                                       (length (teams u))))
  else play_rounds gm (range (game_time gm)).

(** *** Reading traces and runs *)

(** The actions that resolve the move of the bot at position [i]: asking
    its player and moving it on the board. *)
Definition is_resolution (i : nat) (a : action) : bool :=
  match a with
  | GetMove _ _ _ => true
  | MoveBot j _ => bool_decide (j = i)
  | _ => false
  end.

(** The marker of a move whose events contain a [TeamWins], and the
    marker of the move of the bot at position [i]. *)
Definition is_winning_move (a : action) : bool :=
  match a with
  | BotMoved _ events => TeamWins_in events
  | _ => false
  end.

Definition is_move_of (i : nat) (a : action) : bool :=
  match a with
  | BotMoved j _ => bool_decide (j = i)
  | _ => false
  end.

(** One call of [observe] per registered viewer, in registration order. *)
Definition broadcasts (gm : GameMaster) (current_game_time : Z) (i : nat)
    (snapshot : Universe) (events : list Event) : list action :=
  (λ v, Observe v current_game_time i snapshot events) <$> viewers gm.

(** The rounds [0 .. n-1] played one after the other from [u] and [w],
    whatever each of them returns: the universe and the world they
    leave, and what they did. *)
Fixpoint after_rounds (gm : GameMaster) (n : nat) : M unit := λ u w,
  match n with
  | 0 => Run (Ok tt) u w []
  | S k =>
      let a := after_rounds gm k u w in
      let r := play_round gm (Z.of_nat k) (universe_after a) (world_after a) in
      Run (Ok tt) (universe_after r) (world_after r) (trace a ++ trace r)
  end.

(** The run of round [n] after the rounds before it. *)
Definition round_run (gm : GameMaster) (n : nat) : M bool := λ u w,
  let a := after_rounds gm n u w in
  play_round gm (Z.of_nat n) (universe_after a) (world_after a).

End WithCollaborators.

Arguments Run {C A} returned universe_after world_after trace.
Arguments returned {C A} r.
Arguments universe_after {C A} r.
Arguments world_after {C A} r.
Arguments trace {C A} r.

End GameMaster.

(* ===================================================================== *)
(** ** A small universe to run the game master on *)
(* ===================================================================== *)

Module Corridor.
Import GameMaster.

(** A corridor of the cells [0 .. 3] with one piece of food.  A move is
    a step of [-1], [0] or [1] along the corridor; on a slippery floor a
    bot cannot stay where it is.  The team of the bot that reaches the
    food wins. *)
Record corridor : Type := {
  c_bots : list (Bot Z);
  c_food : Z;
  c_slippery : bool
}.

Definition legal_moves (u : corridor) (pos : Z) : gmap Z Z :=
  list_to_map
    (filter (λ mp, bool_decide (0 ≤ mp.2 ≤ 3)%Z)
       ((if c_slippery u then [] else [(0, pos)])
        ++ [(1, pos + 1); (-1, pos - 1)]))%Z.

Definition step (u : corridor) (i : nat) (move : Z)
  : pyres exn (list (UniverseEvent unit) * corridor) :=
  match c_bots u !! i with
  | None => Raise (IndexError OutOfRange)
  | Some bot =>
      match legal_moves u (current_pos bot) !! move with
      | None => Raise IllegalMoveException
      | Some pos =>
          let bot' := {| index := index bot; team_index := team_index bot;
                         current_pos := pos |} in
          Ok (OtherEvent tt ::
                (if bool_decide (pos = c_food u)
                 then [TeamWins (team_index bot)] else []),
              {| c_bots := <[i := bot']> (c_bots u); c_food := c_food u;
                 c_slippery := c_slippery u |})
      end
  end.

(** Players that always answer the same way. *)
Inductive player : Type :=
| Moves (move : Z)
| TimesOut
| Disconnects.

Definition answer (p : player) : pyres exn Z :=
  match p with
  | Moves move => Ok move
  | TimesOut => Raise PlayerTimeout
  | Disconnects => Raise PlayerDisconnected
  end.

(** Two teams; the world is the state of the random generator, a
    counter; viewers are numbered and remember nothing. *)
Definition collaborators : Collaborators := {|
  Universe := corridor;
  Move := Z;
  Pos := Z;
  Team := unit;
  BoardEvent := unit;
  PlayerTeam := player;
  Viewer := nat;
  World := nat;
  stop := 0%Z;
  bots := c_bots;
  teams := λ _, [tt; tt];
  move_bot := step;
  get_legal_moves := legal_moves;
  _get_move := λ p _ _ w, (answer p, w);
  observe := λ _ _ _ _ _ w, w;
  random := λ w, (w, S w)
|}.

(** Two bots, one per team, at the two ends; the food next to the
    second bot. *)
Definition left_bot : Bot Z :=
  {| index := 0; team_index := 0; current_pos := 0%Z |}.
Definition right_bot : Bot Z :=
  {| index := 1; team_index := 1; current_pos := 3%Z |}.

Definition two_bots (slippery : bool) : corridor := {|
  c_bots := [left_bot; right_bot];
  c_food := 2%Z;
  c_slippery := slippery
|}.

Definition master (team0 team1 : player) (rounds : Z) (vs : list nat)
  : @GameMaster collaborators :=
  @Build_GameMaster collaborators rounds 2 [team0; team1] vs.

End Corridor.

(* ===================================================================== *)
(** ** pelita/game_master.py: setting a game up *)
(* ===================================================================== *)

Module Setup.
Import GameMaster.

#[local] Open Scope list_scope.

(** What setting up can raise: the [IndexError] of
    [self.universe.teams[team_idx]] and the [TypeError] of
    [register_viewer], whose message names the class of the viewer. *)
Inductive exn (Viewer : Type) : Type :=
| IndexError
| TypeError (viewer : Viewer).
Arguments IndexError {Viewer}.
Arguments TypeError {Viewer} viewer.

(** What setting up needs beyond the collaborators of a round:
    - [create_CTFUniverse], of [pelita.datamodel];
    - [team_bots], the attribute [bots] of a team of the universe;
    - [_set_bot_ids] and [_set_initial] of a player team and
      [set_initial] of a viewer, which return normally and change the
      world only;
    - [overrides_observe]: whether the [observe] of the class of a
      viewer is another function than [AbstractViewer.observe]. *)
Class Registrars (C : Collaborators) : Type := {
  Layout : Type;
  create_CTFUniverse : Layout → nat → Universe;
  team_bots : Team → list nat;
  _set_bot_ids : PlayerTeam → list nat → World → World;
  _set_initial : PlayerTeam → Universe → World → World;
  set_initial : Viewer → Universe → World → World;
  overrides_observe : Viewer → bool
}.

Section WithRegistrars.
Context {C : Collaborators} {R : Registrars C}.

(** The calls of setting up, in order. *)
Inductive setup_call : Type :=
| SetBotIds (team : PlayerTeam) (bot_ids : list nat)
| SetInitial (team : PlayerTeam) (snapshot : Universe)
| ViewerSetInitial (viewer : Viewer) (snapshot : Universe).

(** The outcome of a registration: what it returned or raised, the
    attributes of the game master and the world it left, and the calls
    it made.  The universe is not changed. *)
Record setup_run : Type := SetupRun {
  registered : pyres (exn Viewer) unit;
  master_after : GameMaster;
  setup_world : World;
  calls : list setup_call
}.

(** The calls of [register_team] that tell a player team the bots of
    its team of the universe, then the universe. *)
Definition told (u : Universe) (team : PlayerTeam) (t : Team)
  : list setup_call :=
  [SetBotIds team (team_bots t); SetInitial team u].

(** [GameMaster.__init__]: the attributes, and the universe. *)
Definition GameMaster_init (layout : Layout) (number_bots : nat)
    (game_time : Z) : GameMaster * Universe :=
  ({| GameMaster.game_time := game_time;
      GameMaster.number_bots := number_bots;
      player_teams := [];
      viewers := [] |},
   create_CTFUniverse layout number_bots).

(** [register_team].  The team is appended before the teams of the
    universe are indexed. *)
Definition register_team (gm : GameMaster) (team : PlayerTeam)
    (u : Universe) (w : World) : setup_run :=
  let gm' := {| game_time := game_time gm;
                number_bots := number_bots gm;
                player_teams := player_teams gm ++ [team];
                viewers := viewers gm |} in
  let team_idx := length (player_teams gm') - 1 in
  match teams u !! team_idx with
  | None => SetupRun (Raise IndexError) gm' w []
  | Some t =>
      let bot_ids := team_bots t in
      SetupRun (Ok tt) gm'
               (_set_initial team u (_set_bot_ids team bot_ids w))
               [SetBotIds team bot_ids; SetInitial team u]
  end.

(** [register_viewer] *)
Definition register_viewer (gm : GameMaster) (viewer : Viewer)
    (u : Universe) (w : World) : setup_run :=
  if overrides_observe viewer
  then SetupRun (Ok tt)
         {| game_time := game_time gm;
            number_bots := number_bots gm;
            player_teams := player_teams gm;
            viewers := viewers gm ++ [viewer] |}
         (set_initial viewer u w)
         [ViewerSetInitial viewer u]
  else SetupRun (Raise (TypeError viewer)) gm w [].

(** [register_team] for each team of a list in turn, up to the first
    one that raises. *)
Fixpoint register_teams (gm : GameMaster) (new_teams : list PlayerTeam)
    (u : Universe) (w : World) : setup_run :=
  match new_teams with
  | [] => SetupRun (Ok tt) gm w []
  | team :: rest =>
      let r := register_team gm team u w in
      match registered r with
      | Raise e => r
      | Ok _ =>
          let r' := register_teams (master_after r) rest u (setup_world r) in
          SetupRun (registered r') (master_after r') (setup_world r')
                   (calls r ++ calls r')
      end
  end.

End WithRegistrars.

Arguments setup_run {C}.
Arguments setup_call {C}.

End Setup.

(* ===================================================================== *)
(** ** A universe of teams to set a game up on *)
(* ===================================================================== *)

Module Arena.
Import GameMaster Setup.

(** The universe is the list of its teams, each the list of the ids of
    its bots; the bots are those of the teams, team after team, and do
    not move.  A move is a number: the board reports the move [n] of a
    bot as a timeout of team [n].  Player teams and viewers are
    numbered; the viewer [0] has not overridden [observe]; the world
    counts the calls made while setting up. *)
Definition arena_bots (u : list (list nat)) : list (Bot unit) :=
  mjoin (imap (λ t ids,
                 (λ id, {| index := id; team_index := t;
                           current_pos := tt |}) <$> ids) u).

Definition arena : Collaborators := {|
  Universe := list (list nat);
  Move := nat;
  Pos := unit;
  Team := list nat;
  BoardEvent := unit;
  PlayerTeam := nat;
  Viewer := nat;
  World := nat;
  stop := 0;
  bots := arena_bots;
  teams := λ u, u;
  move_bot := λ u _ move, Ok ([TimeoutEvent move], u);
  get_legal_moves := λ _ _, {[ 0 := tt ]};
  _get_move := λ p _ _ w, (Ok p, w);
  observe := λ _ _ _ _ _ w, w;
  random := λ w, (w, S w)
|}.

Definition registrars : Registrars arena :=
  @Build_Registrars arena
    (list (list nat))
    (λ layout _, layout)
    (λ t, t)
    (λ _ _ w, S w)
    (λ _ _ w, S w)
    (λ _ _ w, S w)
    (λ v, negb (Nat.eqb v 0)).

(** Two teams of two bots. *)
Definition two_teams : list (list nat) := [[0; 2]; [1; 3]].

(** A game master of three rounds with the given registered teams and
    viewers, and the first bot of [two_teams]. *)
Definition arena_master (registered_teams viewers : list nat)
  : @GameMaster arena :=
  @Build_GameMaster arena 3 4 registered_teams viewers.

Definition first_bot : Bot unit :=
  {| index := 0; team_index := 0; current_pos := tt |}.

End Arena.

(* ===================================================================== *)
(** ** Counting and reading the calls of a trace *)
(* ===================================================================== *)

Module Traces.
Import GameMaster.

Section WithCollaborators.
Context {C : Collaborators}.

Definition is_GetMove (a : action) : bool :=
  match a with GetMove _ _ _ => true | _ => false end.

Definition is_MoveBot (a : action) : bool :=
  match a with MoveBot _ _ => true | _ => false end.

Definition is_BotMoved (a : action) : bool :=
  match a with BotMoved _ _ => true | _ => false end.

Definition is_Observe (a : action) : bool :=
  match a with Observe _ _ _ _ _ => true | _ => false end.

(** The number of entries of a kind in a trace. *)
Definition count (kind : action → bool) (tr : list action) : nat :=
  length (List.filter kind tr).

(** A call is addressed to the game master's own: a player team that is
    registered, or a viewer that is registered, with a round number
    that [round_ok] accepts. *)
Definition addressed (gm : GameMaster) (round_ok : Z → Prop) (a : action)
  : Prop :=
  match a with
  | GetMove team _ _ => team ∈ player_teams gm
  | Observe v current_game_time _ _ _ =>
      v ∈ viewers gm ∧ round_ok current_game_time
  | _ => True
  end.

End WithCollaborators.
End Traces.

(* ===================================================================== *)
(** ** The moves of a round, one after the other *)
(* ===================================================================== *)

Module Rounds.
Import GameMaster.

Section WithCollaborators.
Context {C : Collaborators}.

(** A completed move of a round: the bot and its player team, the
    universe and the world in which the player is asked, the move the
    player gives, and the events and the universe that [move_bot]
    returns for this move. *)
Record moved_bot : Type := {
  mb_bot : Bot Pos;
  mb_team : PlayerTeam;
  mb_universe : Universe;
  mb_world : World;
  mb_move : Move;
  mb_events : list (UniverseEvent BoardEvent);
  mb_after : Universe
}.

(** [m] is what the collaborators do for the bot at position [i]: the
    bot is the one at this position, its team is registered, the player
    gives the move, the board accepts it, and the teams of the
    [TimeoutEvent]s among the events exist. *)
Definition is_move_at (gm : GameMaster) (i : nat) (m : moved_bot) : Prop :=
  bots (mb_universe m) !! i = Some (mb_bot m) ∧
  player_teams gm !! team_index (mb_bot m) = Some (mb_team m) ∧
  (_get_move (mb_team m) (index (mb_bot m)) (mb_universe m) (mb_world m)).1
  = Ok (mb_move m) ∧
  move_bot (mb_universe m) i (mb_move m) = Ok (mb_events m, mb_after m) ∧
  ∀ t, TimeoutEvent t ∈ mb_events m → t < length (teams (mb_after m)).

(** The calls of a completed move at position [i], in order: the player
    is asked with the universe before the move, the board is moved, and
    every registered viewer is called with the round, the position, the
    universe after the move and the events of the move. *)
Definition segment (gm : GameMaster) (current_game_time : Z) (i : nat)
    (m : moved_bot) : list action :=
  [GetMove (mb_team m) (index (mb_bot m)) (mb_universe m);
   MoveBot i (mb_move m);
   BotMoved i (mb_events m)]
  ++ broadcasts gm current_game_time i (mb_after m) (mb_events m).

(** The world a completed move leaves: the one the player has left,
    after each viewer in turn has observed. *)
Definition world_after_move (gm : GameMaster) (current_game_time : Z)
    (i : nat) (m : moved_bot) : World :=
  foldl (λ w v, observe v current_game_time i (mb_after m) (mb_events m) w)
        (_get_move (mb_team m) (index (mb_bot m)) (mb_universe m)
                   (mb_world m)).2
        (viewers gm).

(** [ms] are the moves of the bots at the positions [i], [i+1], ... one
    after the other from [u] and [w]: each player is asked in the
    universe and the world that the move before has left. *)
Fixpoint moves_from (gm : GameMaster) (current_game_time : Z) (i : nat)
    (u : Universe) (w : World) (ms : list moved_bot) : Prop :=
  match ms with
  | [] => True
  | m :: rest =>
      mb_universe m = u ∧ mb_world m = w ∧ is_move_at gm i m ∧
      moves_from gm current_game_time (S i) (mb_after m)
                 (world_after_move gm current_game_time i m) rest
  end.

(** The calls of these moves, the universe and the world they leave. *)
Fixpoint segments (gm : GameMaster) (current_game_time : Z) (i : nat)
    (ms : list moved_bot) : list action :=
  match ms with
  | [] => []
  | m :: rest =>
      segment gm current_game_time i m
      ++ segments gm current_game_time (S i) rest
  end.

Fixpoint universe_after_moves (u : Universe) (ms : list moved_bot)
  : Universe :=
  match ms with
  | [] => u
  | m :: rest => universe_after_moves (mb_after m) rest
  end.

Fixpoint world_after_moves (gm : GameMaster) (current_game_time : Z)
    (i : nat) (w : World) (ms : list moved_bot) : World :=
  match ms with
  | [] => w
  | m :: rest =>
      world_after_moves gm current_game_time (S i)
        (world_after_move gm current_game_time i m) rest
  end.

(** The calls [tail] of a move of the bot at position [i] that is not
    completed, from [u] and [w]: the team of the bot is not registered
    and nobody is asked; or its player is asked and raises; or the
    player gives a move and the board is moved by it, and the board
    raises or reports a [TimeoutEvent] of a team that does not exist.
    No viewer is called. *)
Definition interrupted (gm : GameMaster) (i : nat) (u : Universe)
    (w : World) (tail : list action) : Prop :=
  ∃ bot, bots u !! i = Some bot ∧
    ((player_teams gm !! team_index bot = None ∧ tail = []) ∨
     ∃ pt, player_teams gm !! team_index bot = Some pt ∧
       (((∃ e, (_get_move pt (index bot) u w).1 = Raise e) ∧
         tail = [GetMove pt (index bot) u]) ∨
        ∃ move,
          (_get_move pt (index bot) u w).1 = Ok move ∧
          tail = [GetMove pt (index bot) u; MoveBot i move] ∧
          ((∃ e, move_bot u i move = Raise e) ∨
           ∃ events u',
             move_bot u i move = Ok (events, u') ∧
             ∃ t, TimeoutEvent t ∈ events ∧ length (teams u') ≤ t))).

End WithCollaborators.
End Rounds.

(* ===================================================================== *)
(** ** Properties of the message protocol *)
(* ===================================================================== *)

Module MessagesSpec.
Import Messages.

#[local] Open Scope string_scope.
#[local] Open Scope list_scope.

Section WithChannel.
Context {Channel : Type}.
Implicit Types m : message Channel.
Implicit Types d : gmap string value.

(** Binding keyword arguments succeeds exactly when the keys of the dict
    are the parameters, and then yields the values in parameter order. *)
Lemma bind_kwargs_Some params d vs :
  bind_kwargs params d = Some vs ↔
  dom d = list_to_set params ∧ Forall2 (λ p v, d !! p = Some v) params vs.
Proof.
  unfold bind_kwargs. case_bool_decide as Hsub.
  - rewrite mapM_Some. split; [|tauto].
    intros HF. split; [|done].
    apply set_eq. intros k. split; [set_solver|].
    rewrite elem_of_list_to_set. intros Hk.
    apply list_elem_of_lookup in Hk as [j Hj].
    destruct (Forall2_lookup_l _ _ _ _ _ HF Hj) as (v & _ & Hv).
    apply elem_of_dom. eauto.
  - split; [done|]. intros [Hd _]. destruct Hsub. by rewrite Hd.
Qed.

Lemma bind_kwargs_None params d :
  bind_kwargs params d = None ↔ dom d ≠ list_to_set params.
Proof.
  split.
  - intros HN Hd.
    assert (∃ vs, Forall2 (λ p v, d !! p = Some v) params vs) as [vs Hvs].
    { assert (Forall (λ p, is_Some (d !! p)) params) as HF.
      { apply Forall_forall. intros p Hp. apply elem_of_dom.
        rewrite Hd. by apply elem_of_list_to_set. }
      clear Hd HN. induction HF as [|p ps [v Hv] _ [vs IH]].
      - by exists [].
      - exists (v :: vs). by constructor. }
    assert (bind_kwargs params d = Some vs) as HS
      by (by apply bind_kwargs_Some).
    congruence.
  - intros Hne. destruct (bind_kwargs params d) as [vs|] eqn:E; [|done].
    apply bind_kwargs_Some in E as [? _]. done.
Qed.

(** A dict is determined by its keys and the values under them. *)
Lemma dict_of_lookups params d vs (d' : gmap string value) :
  dom d = list_to_set params →
  dom d' = list_to_set params →
  Forall2 (λ p v, d !! p = Some v) params vs →
  Forall2 (λ p v, d' !! p = Some v) params vs →
  d' = d.
Proof.
  intros Hd Hd' HF HF'. apply map_eq. intros k.
  destruct (decide (k ∈ params)) as [Hk|Hk].
  - apply list_elem_of_lookup in Hk as [j Hj].
    destruct (Forall2_lookup_l _ _ _ _ _ HF Hj) as (v & Hv & ->).
    destruct (Forall2_lookup_l _ _ _ _ _ HF' Hj) as (v' & Hv' & ->).
    congruence.
  - assert (k ∉ dom d) as H1 by (rewrite Hd; set_solver).
    assert (k ∉ dom d') as H2 by (rewrite Hd'; set_solver).
    apply not_elem_of_dom in H1, H2. congruence.
Qed.

Lemma dom_dict m : dom (dict m) = list_to_set (init_params (class_of m)).
Proof. destruct m; cbn [dict class_of init_params]; set_solver. Qed.

Lemma lookups_dict m :
  Forall2 (λ p v, dict m !! p = Some v) (init_params (class_of m)) (fields m).
Proof. destruct m; repeat constructor. Qed.

(** What [cls( **d )] does: it builds the message of class [cls] whose
    dict is [d] when the keys of [d] are the parameters of [cls], and
    raises [TypeError] otherwise. *)
Lemma construct_Ok cls d m :
  @construct Channel cls d = Ok m ↔
  dom d = list_to_set (init_params cls) ∧ class_of m = cls ∧ dict m = d ∧
  m = match m with Query a b c _ => Query_init a b c | _ => m end.
Proof.
  split.
  - unfold construct. intros H.
    destruct (bind_kwargs (init_params cls) d) as [vs|] eqn:E;
      [|done].
    apply bind_kwargs_Some in E as [Hd HF].
    assert (∀ m', class_of m' = cls → fields m' = vs → dict m' = d) as Hdict.
    { intros m' <- <-. eapply dict_of_lookups; eauto using dom_dict, lookups_dict. }
    destruct cls; cbn [init_params] in *;
      repeat (destruct vs as [|? vs]; cbn [init] in H; try done);
      simplify_eq; (split; [done|]); (split; [done|]);
      (split; [by apply Hdict|done]).
  - intros (Hd & <- & <- & Hm). unfold construct.
    assert (bind_kwargs (init_params (class_of m)) (dict m) = Some (fields m)) as ->.
    { apply bind_kwargs_Some. eauto using dom_dict, lookups_dict. }
    destruct m; cbn [init class_of fields];
      unfold Query_init, Notification_init, Response_init, Error_init in *;
      congruence.
Qed.

Lemma construct_Raise cls d e :
  @construct Channel cls d = Raise e ↔
  e = TypeError ∧ dom d ≠ list_to_set (init_params cls).
Proof.
  unfold construct.
  destruct (bind_kwargs (init_params cls) d) as [vs|] eqn:E.
  - pose proof E as E'. apply bind_kwargs_Some in E' as [Hd HF].
    split; [|intros [_ ?]; done].
    apply Forall2_length in HF.
    destruct cls; cbn [init_params length] in HF;
      repeat (destruct vs as [|? vs]; try done).
  - apply bind_kwargs_None in E.
    split; [intros [= <-]; done | by intros [-> _]].
Qed.

(** No two classes take the same parameters. *)
Lemma init_params_inj cls cls' :
  list_to_set (C := gset string) (init_params cls) = list_to_set (init_params cls') → cls = cls'.
Proof.
  destruct cls, cls'; try done; cbn [init_params]; intros H; exfalso.
  all: first
    [ assert ("id" ∈ (list_to_set ["method"; "params"] : gset string)) as X
        by (first [rewrite H | rewrite <-H]; set_solver); set_solver
    | assert ("method" ∈ (list_to_set ["result"; "id"] : gset string)) as X
        by (first [rewrite H | rewrite <-H]; set_solver); set_solver
    | assert ("method" ∈ (list_to_set ["error"; "id"] : gset string)) as X
        by (first [rewrite H | rewrite <-H]; set_solver); set_solver
    | assert ("result" ∈ (list_to_set ["error"; "id"] : gset string)) as X
        by (first [rewrite H | rewrite <-H]; set_solver); set_solver
    | assert ("error" ∈ (list_to_set ["result"; "id"] : gset string)) as X
        by (first [rewrite H | rewrite <-H]; set_solver); set_solver ].
Qed.

Lemma load_from_Ok classes d m :
  @load_from Channel classes d = Ok m ↔
  ∃ cls, cls ∈ classes ∧ construct cls d = Ok m.
Proof.
  induction classes as [|c cs IH]; cbn [load_from].
  - split; [done|]. intros (? & H & _). by apply elem_of_nil in H.
  - destruct (construct c d) as [m'|e] eqn:E.
    + split.
      * intros [= <-]. exists c. split; [left|done].
      * intros (cls & _ & Hc).
        assert (cls = c) as ->; [|congruence].
        apply construct_Ok in E as (E1 & _), Hc as (H1 & _).
        apply init_params_inj. congruence.
    + apply construct_Raise in E as [-> Hne]. rewrite IH. split.
      * intros (cls & ? & ?). exists cls. split; [by right|done].
      * intros (cls & Hin & Hc). exists cls. split; [|done].
        apply elem_of_cons in Hin as [->|]; [|done].
        apply construct_Ok in Hc as [? _]. done.
Qed.

Lemma load_from_Raise classes d e :
  @load_from Channel classes d = Raise e ↔
  e = ValueError d ∧ ∀ cls, cls ∈ classes → dom d ≠ list_to_set (init_params cls).
Proof.
  induction classes as [|c cs IH]; cbn [load_from].
  - split; [intros [= <-]|intros [-> _]]; [|done].
    split; [done|]. intros ? H. by apply elem_of_nil in H.
  - destruct (construct c d) as [m'|e'] eqn:E.
    + apply construct_Ok in E as [Hd _]. split; [done|].
      intros [_ H]. destruct (H c); [left|done].
    + apply construct_Raise in E as [-> Hne]. rewrite IH.
      split; intros [-> H]; (split; [done|]); intros cls Hin.
      * apply elem_of_cons in Hin as [->|]; auto.
      * apply H. by right.
Qed.

Lemma all_defined cls : cls ∈ _defined_messages.
Proof. unfold _defined_messages. destruct cls; set_solver. Qed.

(** C4. Round trip: loading the dict of a message gives a message of the
    same class with the same fields (method, params, id, result, error,
    as the class has them), whose dict is again the same; for a message
    as its constructor builds it the loaded message is the message
    itself; and the dict of [Query("move", [3], "q-7")] loads as that
    query. *)
Theorem load_dict_roundtrip :
  (∀ m, ∃ m', _load_message (dict m) = Ok m' ∧
              class_of m' = class_of m ∧ fields m' = fields m ∧
              dict m' = dict m) ∧
  (∀ method params id,
     @_load_message Channel (dict (@Query_init Channel method params id))
     = Ok (Query_init method params id)) ∧
  (∀ method params,
     @_load_message Channel (dict (@Notification_init Channel method params))
     = Ok (Notification_init method params)) ∧
  (∀ res id,
     @_load_message Channel (dict (@Response_init Channel res id))
     = Ok (Response_init res id)) ∧
  (∀ error id,
     @_load_message Channel (dict (@Error_init Channel error id))
     = Ok (Error_init error id)) ∧
  @_load_message Channel (dict (@Query_init Channel (VStr "move") (VList [VInt 3])
                                   (VStr "q-7")))
  = Ok (Query (VStr "move") (VList [VInt 3]) (VStr "q-7") None).
Proof.
  assert (∀ m, m = match m with
                   | Query a b c _ => Query_init a b c
                   | _ => m
                   end → _load_message (dict m) = Ok m) as Hfresh.
  { intros m Hm. apply load_from_Ok. exists (class_of m).
    split; [apply all_defined|].
    apply construct_Ok. eauto using dom_dict. }
  split; [|repeat split; intros; by apply Hfresh].
  intros m.
  exists (match m with Query a b c _ => Query_init a b c | _ => m end).
  split; [|by destruct m].
  destruct m as [a b c ch| | |]; try by apply Hfresh.
  by apply (Hfresh (Query_init a b c)).
Qed.

(** C7. [is_response] is false for a Query and for a Notification, true
    for a Response, and for an Error true exactly when its id is not
    [None]. *)
Theorem is_response_spec :
  (∀ method params id ch,
     is_response (@Query Channel method params id ch) = false) ∧
  (∀ method params,
     is_response (@Notification Channel method params) = false) ∧
  (∀ res id, is_response (@Response Channel res id) = true) ∧
  (∀ error id,
     is_response (@Error Channel error id) = true ↔ id ≠ VNone).
Proof.
  repeat split; try done.
  - intros H ->. done.
  - intros H. by destruct id.
Qed.

(** C8. Loading fails exactly when the keys of the dict are the
    parameters of none of the four classes, and the failure is the
    [ValueError] that carries the dict; when the keys are the parameters
    of a class, loading returns a message of that class whose dict is
    the given one, built by that class after every class before it in
    [_defined_messages] has refused with [TypeError]. *)
Theorem load_unrecognized (d : gmap string value) :
  (@_load_message Channel d = Raise (ValueError d) ↔
   ∀ cls, dom d ≠ list_to_set (init_params cls)) ∧
  (∀ e, @_load_message Channel d = Raise e → e = ValueError d) ∧
  (∀ cls, dom d = list_to_set (init_params cls) →
     ∃ m, @_load_message Channel d = Ok m ∧ class_of m = cls ∧
          dict m = d ∧ construct cls d = Ok m ∧
          ∀ before after, _defined_messages = before ++ cls :: after →
            ∀ cls', cls' ∈ before → @construct Channel cls' d = Raise TypeError).
Proof.
  unfold _load_message. split; [|split].
  - rewrite load_from_Raise. split.
    + intros [_ H] cls. apply H, all_defined.
    + intros H. split; [done|]. intros cls _. apply H.
  - intros e He. by apply load_from_Raise in He as [-> _].
  - intros cls Hd.
    destruct (@construct Channel cls d) as [m|e] eqn:E.
    + exists m. split; [|split; [|split; [|split]]].
      * apply load_from_Ok. exists cls. split; [apply all_defined|done].
      * by apply construct_Ok in E as (_ & ? & _).
      * by apply construct_Ok in E as (_ & _ & ? & _).
      * done.
      * intros before after Hsplit cls' Hin. apply construct_Raise.
        split; [done|]. intros Hd'.
        assert (cls' = cls) as -> by (apply init_params_inj; congruence).
        assert (NoDup (@_defined_messages)) as HND.
        { unfold _defined_messages.
          repeat constructor; rewrite ?elem_of_cons, ?elem_of_nil;
            intuition discriminate. }
        rewrite Hsplit in HND. apply NoDup_app in HND as (_ & Hdisj & _).
        apply (Hdisj cls Hin). left.
    + apply construct_Raise in E as [_ E]. done.
Qed.

(** C10. A query as its constructor builds it has no channel; on it
    [reply] and [reply_error] raise and hand nothing to any channel,
    while [response] and [error_msg] return the Response and the Error
    that carry the id of the query.  Once a channel is assigned, [reply]
    and [reply_error] hand these same messages to it. *)
Theorem reply_without_channel (method params id : value) :
  let q := @Query_init Channel method params id in
  (∃ ch, q = Query method params id ch ∧ ch = None) ∧
  (∀ res, reply q res = Raise AttributeError) ∧
  (∀ error, reply_error q error = Raise AttributeError) ∧
  (∀ res, response q res = Ok (Response res id)) ∧
  (∀ error, error_msg q error = Ok (Error error id)) ∧
  (∀ ch res, reply (set_channel q ch) res = Ok (Put ch (Response res id))) ∧
  (∀ ch error,
     reply_error (set_channel q ch) error = Ok (Put ch (Error error id))).
Proof.
  cbv zeta. split; [by exists None|].
  repeat split.
Qed.

End WithChannel.

(** A dict with the one key ["foo"] is no message; a dict with the keys
    of a Response loads as the Response. *)
Lemma load_unrecognized_witness :
  @_load_message unit {[ "foo" := VInt 1 ]}
  = Raise (ValueError {[ "foo" := VInt 1 ]}) ∧
  ∃ m, @_load_message unit {[ "result" := VInt 1; "id" := VNone ]} = Ok m ∧
       class_of m = CResponse.
Proof.
  split.
  - apply (proj1 (@load_unrecognized unit {[ "foo" := VInt 1 ]})).
    intros cls Hd.
    assert ("foo" ∈ dom ({[ "foo" := VInt 1 ]} : gmap string value)) as Hin
      by (apply elem_of_dom; eexists; reflexivity).
    rewrite Hd in Hin. destruct cls; vm_compute in Hin; discriminate Hin.
  - destruct (proj2 (proj2 (@load_unrecognized unit
                 {[ "result" := VInt 1; "id" := VNone ]})) CResponse)
      as (m & Hm & Hc & _).
    + apply set_eq. intros k.
      rewrite elem_of_dom, elem_of_list_to_set. cbn [init_params].
      rewrite !elem_of_cons, elem_of_nil. split.
      * intros [v Hv]. destruct (decide (k = "result")); [tauto|].
        destruct (decide (k = "id")); [tauto|].
        rewrite lookup_insert_ne, lookup_singleton_ne in Hv by done. done.
      * intros [->|[->|[]]]; eexists; reflexivity.
    + exists m. split; [exact Hm|exact Hc].
Defined.

End MessagesSpec.

(* ===================================================================== *)
(** ** Properties of the game master *)
(* ===================================================================== *)

Module GameMasterSpec.
Import GameMaster.

Section WithCollaborators.
Context {C : Collaborators}.
Abbreviation Event := (UniverseEvent BoardEvent).
Implicit Types (u : Universe) (w : World) (gm : GameMaster) (gt : Z).
Implicit Types (i : nat) (bot : Bot Pos) (e : exn) (a : action).
Implicit Types (events : list Event).

(** *** Sequencing *)

Lemma bind_unfold {A B} (m : M A) (k : A → M B) u w :
  (m ≫= k) u w =
  match returned (m u w) with
  | Raise e => Run (Raise e) (universe_after (m u w)) (world_after (m u w))
                   (trace (m u w))
  | Ok a =>
      let r' := k a (universe_after (m u w)) (world_after (m u w)) in
      Run (returned r') (universe_after r') (world_after r')
          (trace (m u w) ++ trace r')
  end.
Proof. reflexivity. Qed.

(** [uni] is not a name of the module. *)
Lemma uni_unbound u w :
  load_global "uni"%string u w = Run (Raise (NameError "uni"%string)) u w [].
Proof. reflexivity. Qed.

(** Once the body of the [try] statement has raised, the first clause
    raises [NameError] and no handler runs. *)
Lemma except_clauses_NameError i bot e u w :
  except_clauses i bot e u w = Run (Raise (NameError "uni"%string)) u w [].
Proof. reflexivity. Qed.

(** *** The pieces of one iteration *)

Lemma getitem_cases {A} (l : list A) n u w :
  (∃ x, l !! n = Some x ∧ getitem l n u w = Run (Ok x) u w []) ∨
  (l !! n = None ∧ getitem l n u w = Run (Raise (IndexError OutOfRange)) u w []).
Proof. unfold getitem. destruct (l !! n); [left|right]; eauto. Qed.

(** The [try] statement: the events of a move that the player gives and
    the universe accepts; [NameError] as soon as either raises. *)
Lemma resolve_cases (pt : PlayerTeam) i bot u w :
  resolve pt i bot u w =
  match _get_move pt (index bot) u w with
  | (Ok move, w') =>
      match move_bot u i move with
      | Ok (events, u') =>
          Run (Ok events) u' w' [GetMove pt (index bot) u; MoveBot i move]
      | Raise _ =>
          Run (Raise (NameError "uni"%string)) u w'
              [GetMove pt (index bot) u; MoveBot i move]
      end
  | (Raise _, w') =>
      Run (Raise (NameError "uni"%string)) u w' [GetMove pt (index bot) u]
  end.
Proof.
  unfold resolve, try_except. rewrite bind_unfold. unfold call_get_move.
  destruct (_get_move pt (index bot) u w) as [[move|e] w']; cbn; [|done].
  unfold call_move_bot.
  by destruct (move_bot u i move) as [[events u']|e].
Qed.

Lemma resolve_trace (pt : PlayerTeam) i bot u w :
  forallb (is_resolution i) (trace (resolve pt i bot u w)) = true.
Proof.
  rewrite resolve_cases.
  destruct (_get_move pt (index bot) u w) as [[move|e] w']; [|done].
  destruct (move_bot u i move) as [[events u']|e]; cbn;
    by rewrite bool_decide_true.
Qed.

Lemma lookup_timeout_teams_cases (ts : list nat) u w :
  lookup_timeout_teams ts u w = Run (Ok tt) u w [] ∨
  lookup_timeout_teams ts u w = Run (Raise (IndexError OutOfRange)) u w [].
Proof.
  induction ts as [|t ts IH]; [by left|].
  cbn [lookup_timeout_teams]. rewrite bind_unfold. cbn.
  rewrite bind_unfold.
  destruct (getitem_cases (teams u) t u w) as [(x & _ & ->)|[_ ->]]; cbn;
    [|by right].
  destruct IH as [->| ->]; [by left|by right].
Qed.

Lemma broadcast_run (vs : list Viewer) gt i events u w :
  ∃ w', broadcast vs gt i events u w =
        Run (Ok tt) u w' ((λ v, Observe v gt i u events) <$> vs).
Proof.
  revert w. induction vs as [|v vs IH]; intros w; [by exists w|].
  cbn [broadcast]. rewrite bind_unfold. cbn.
  destruct (IH (observe v gt i u events w)) as [w' ->]. by exists w'.
Qed.

(** One iteration either returns the events, and then its trace is the
    resolution of the bot followed by the broadcast of these events with
    the universe the move has left, or it raises before any broadcast. *)
Lemma bot_move_shape gm gt i bot u w :
  let s := bot_move gm gt i bot u w in
  match returned s with
  | Ok events =>
      ∃ res, forallb (is_resolution i) res = true ∧
             trace s = res ++ BotMoved i events
                           :: broadcasts gm gt i (universe_after s) events
  | Raise _ => forallb (is_resolution i) (trace s) = true
  end.
Proof.
  unfold bot_move. cbn zeta. rewrite bind_unfold.
  destruct (getitem_cases (player_teams gm) (team_index bot) u w)
    as [(pt & _ & ->)|[_ ->]]; cbn; [|done].
  rewrite bind_unfold. pose proof (resolve_trace pt i bot u w) as Hres.
  destruct (resolve pt i bot u w) as [[events|e] u1 w1 tr1]; cbn in *;
    [|done].
  rewrite bind_unfold.
  destruct (lookup_timeout_teams_cases (filter_TimeoutEvent events) u1 w1)
    as [-> | ->]; cbn; [|by rewrite app_nil_r].
  rewrite bind_unfold. cbn.
  destruct (broadcast_run (viewers gm) gt i events u1 w1) as [w' Hb].
  rewrite !bind_unfold, Hb. cbn. exists tr1. split; [done|].
  by rewrite app_nil_r.
Qed.

(** *** The loop of [play_round] *)

Lemma play_round_from_cons gm gt i rest u w :
  play_round_from gm gt (i :: rest) u w =
  match bots u !! i with
  | None => Run (Ok true) u w []
  | Some bot =>
      let s := bot_move gm gt i bot u w in
      match returned s with
      | Raise e => Run (Raise e) (universe_after s) (world_after s) (trace s)
      | Ok events =>
          if TeamWins_in events
          then Run (Ok false) (universe_after s) (world_after s) (trace s)
          else
            let r := play_round_from gm gt rest (universe_after s)
                                     (world_after s) in
            Run (returned r) (universe_after r) (world_after r)
                (trace s ++ trace r)
      end
  end.
Proof.
  cbn [play_round_from]. rewrite bind_unfold. cbn.
  destruct (bots u !! i) as [bot|]; [|done].
  rewrite bind_unfold. cbn zeta.
  destruct (returned (bot_move gm gt i bot u w)) as [events|e]; [|done].
  destruct (TeamWins_in events); [|done]. cbn. by rewrite app_nil_r.
Qed.

Lemma play_round_unfold gm gt u w :
  play_round gm gt u w = play_round_from gm gt (seq 0 (length (bots u))) u w.
Proof.
  unfold play_round. rewrite bind_unfold. cbn.
  by destruct (play_round_from gm gt (seq 0 (length (bots u))) u w).
Qed.

(** Resolution actions are neither markers nor broadcasts. *)
Lemma resolution_not_BotMoved i (tr : list action) j events :
  forallb (is_resolution i) tr = true → BotMoved j events ∉ tr.
Proof.
  intros H Hin. apply list_elem_of_In in Hin.
  rewrite forallb_forall in H. by apply H in Hin.
Qed.

Lemma broadcasts_not_BotMoved gm gt i u events j events' :
  BotMoved j events' ∉ broadcasts gm gt i u events.
Proof.
  unfold broadcasts. intros Hin.
  by apply list_elem_of_fmap in Hin as (v & ? & _).
Qed.

Ltac no_marker :=
  match goal with
  | Hres : forallb (is_resolution ?i) ?tr = true, H : BotMoved _ _ ∈ ?tr
    |- _ => destruct (resolution_not_BotMoved i tr _ _ Hres H)
  end.

(** The only marker of an iteration is that of its own events. *)
Lemma bot_move_marker gm gt i bot u w j events :
  BotMoved j events ∈ trace (bot_move gm gt i bot u w) →
  j = i ∧ returned (bot_move gm gt i bot u w) = Ok events.
Proof.
  pose proof (bot_move_shape gm gt i bot u w) as Hs. cbn zeta in Hs.
  destruct (returned (bot_move gm gt i bot u w)) as [evs|e].
  - destruct Hs as (res & Hres & ->). intros Hin.
    apply elem_of_app in Hin as [Hin|Hin]; [no_marker|].
    apply elem_of_cons in Hin as [[= -> ->]|Hin]; [done|].
    by apply broadcasts_not_BotMoved in Hin.
  - intros Hin. no_marker.
Qed.

Ltac split5 := split; [|split; [|split; [|split]]].

(** What the loop over the positions [s .. s+len-1] does. *)
Lemma play_round_from_spec gm gt len : ∀ s u w,
  let r := play_round_from gm gt (seq s len) u w in
  (∀ j events, BotMoved j events ∈ trace r → s ≤ j < s + len) ∧
  (returned r = Ok false →
     ∃ i events before,
       trace r = before ++ BotMoved i events
                        :: broadcasts gm gt i (universe_after r) events ∧
       TeamWins_in events = true ∧ s ≤ i ∧
       ∀ j events', BotMoved j events' ∈ before →
                    j < i ∧ TeamWins_in events' = false) ∧
  (returned r ≠ Ok false →
     ∀ j events, BotMoved j events ∈ trace r → TeamWins_in events = false) ∧
  (returned r = Ok true →
     ∀ j, s ≤ j < s + len → j < length (bots (universe_after r)) →
          ∃ events, BotMoved j events ∈ trace r) ∧
  ((∀ j, s ≤ j < s + len → ∃ events, BotMoved j events ∈ trace r) →
   (∀ j events, BotMoved j events ∈ trace r → TeamWins_in events = false) →
   returned r = Ok true).
Proof.
  induction len as [|len IH]; intros s u w.
  { cbn. split5; try done.
    - intros ?? H. by apply elem_of_nil in H.
    - intros ??? H. by apply elem_of_nil in H.
    - intros ? j ?. lia. }
  cbn [seq]. cbv zeta. rewrite play_round_from_cons.
  destruct (bots u !! s) as [bot|] eqn:Hbot.
  2:{ cbn. split5; try done.
      - intros ?? H. by apply elem_of_nil in H.
      - intros ??? H. by apply elem_of_nil in H.
      - intros _ j Hj Hlt. apply lookup_ge_None in Hbot. lia. }
  cbn zeta.
  pose proof (bot_move_shape gm gt s bot u w) as Hshape.
  pose proof (bot_move_marker gm gt s bot u w) as Hmark.
  cbn zeta in Hshape.
  destruct (bot_move gm gt s bot u w) as [[events|e] u1 w1 tr1]; cbn in *.
  2:{ split5; try done.
      - intros ?? H. no_marker.
      - intros ??? H. no_marker.
      - intros Hall _. destruct (Hall s) as [evs H]; [lia|]. no_marker. }
  destruct Hshape as (res & Hres & ->).
  destruct (TeamWins_in events) eqn:Hwin; cbn.
  { split5; try done.
    - intros ?? H. apply Hmark in H as [-> _]. lia.
    - intros _. exists s, events, res. split; [done|].
      split; [done|]. split; [done|]. intros ?? H. no_marker.
    - intros _ Hno. rewrite (Hno s events) in Hwin; [done|].
      apply elem_of_app. right. left. }
  specialize (IH (S s) u1 w1). cbn zeta in IH.
  destruct IH as (IHa & IHb & IHc & IHd & IHe).
  set (r := play_round_from gm gt (seq (S s) len) u1 w1) in *.
  set (tr1 := res ++ BotMoved s events :: broadcasts gm gt s u1 events) in *.
  assert (∀ j evs, BotMoved j evs ∈ tr1 → j = s ∧ evs = events) as Hmark'.
  { intros j evs H. apply Hmark in H as [-> [= ->]]. done. }
  split5.
  - intros j evs H.
    apply elem_of_app in H as [H|H]; [apply Hmark' in H as [-> _]; lia|].
    apply IHa in H. lia.
  - intros Hr.
    destruct (IHb Hr) as (i & evs & before & Htr & Hw & Hi & Hbefore).
    exists i, evs, (tr1 ++ before). rewrite Htr, (assoc_L (++)).
    split; [done|]. split; [done|]. split; [lia|].
    intros j evs' H. apply elem_of_app in H as [H|H].
    + apply Hmark' in H as [-> ->]. split; [lia|done].
    + by apply Hbefore in H.
  - intros Hr j evs H. apply elem_of_app in H as [H|H].
    + by apply Hmark' in H as [-> ->].
    + by apply (IHc Hr j).
  - intros Hr j Hj Hlt. destruct (decide (j = s)) as [->|Hne].
    + exists events. apply elem_of_app. left.
      apply elem_of_app. right. left.
    + destruct (IHd Hr j) as [evs H]; [lia|done|].
      exists evs. apply elem_of_app. by right.
  - intros Hall Hno. apply IHe.
    + intros j Hj. destruct (Hall j) as [evs H]; [lia|].
      apply elem_of_app in H as [H|H]; [apply Hmark' in H as [-> _]; lia|].
      by exists evs.
    + intros j evs H. apply (Hno j). apply elem_of_app. by right.
Qed.

(** Markers can be searched for by computation. *)
Lemma winning_move_exists (tr : list action) :
  existsb is_winning_move tr = true ↔
  ∃ i events, BotMoved i events ∈ tr ∧ TeamWins_in events = true.
Proof.
  rewrite existsb_exists. split.
  - intros ([] & Hin & Hw); try done.
    eexists _, _. split; [by apply list_elem_of_In|done].
  - intros (i & events & Hin & Hw). exists (BotMoved i events).
    split; [by apply list_elem_of_In|done].
Qed.

Lemma move_of_exists i (tr : list action) :
  existsb (is_move_of i) tr = true ↔ ∃ events, BotMoved i events ∈ tr.
Proof.
  rewrite existsb_exists. split.
  - intros ([] & Hin & Hm); try done. cbn in Hm.
    apply bool_decide_eq_true in Hm as ->.
    eexists. by apply list_elem_of_In.
  - intros (events & Hin). exists (BotMoved i events).
    split; [by apply list_elem_of_In|]. cbn. by apply bool_decide_eq_true.
Qed.

(** C1. [play_round] returns [False] exactly when the events of some
    bot move of the round contain a [TeamWins]; such a move is the last
    thing the round does: the trace ends with the broadcast of these
    events and of the universe the move has left to every viewer, and no
    earlier move of the round had a [TeamWins]; when no move has one and
    every bot has moved, [play_round] returns [True], and when it returns
    [True] no move had one and every bot has moved. *)
Theorem play_round_TeamWins gm gt u w :
  let r := play_round gm gt u w in
  (returned r = Ok false ↔
   ∃ i events, BotMoved i events ∈ trace r ∧ TeamWins_in events = true) ∧
  (∀ i events,
     BotMoved i events ∈ trace r → TeamWins_in events = true →
     returned r = Ok false ∧
     ∃ before,
       trace r = before ++ BotMoved i events
                        :: broadcasts gm gt i (universe_after r) events ∧
       ∀ j events', BotMoved j events' ∈ before →
                    j < i ∧ TeamWins_in events' = false) ∧
  ((∀ i events, BotMoved i events ∈ trace r → TeamWins_in events = false) →
   (∀ i, i < length (bots u) → ∃ events, BotMoved i events ∈ trace r) →
   returned r = Ok true) ∧
  (returned r = Ok true →
   (∀ i events, BotMoved i events ∈ trace r → TeamWins_in events = false) ∧
   (∀ i, i < length (bots u) → i < length (bots (universe_after r)) →
         ∃ events, BotMoved i events ∈ trace r)).
Proof.
  cbv zeta. rewrite play_round_unfold.
  destruct (play_round_from_spec gm gt (length (bots u)) 0 u w)
    as (Ha & Hb & Hc & Hd & He).
  set (r := play_round_from gm gt (seq 0 (length (bots u))) u w) in *.
  assert (∀ i events, BotMoved i events ∈ trace r →
            TeamWins_in events = true → returned r = Ok false) as Hwin.
  { intros i events Hin Hw.
    destruct (returned r) as [[]|e] eqn:Hr; [|done|];
      rewrite (Hc ltac:(done) i events Hin) in Hw; done. }
  split; [|split; [|split]].
  - split.
    + intros Hr. destruct (Hb Hr) as (i & events & before & Htr & Hw & _).
      exists i, events. split; [|done]. rewrite Htr.
      apply elem_of_app. right. left.
    + intros (i & events & Hin & Hw). by apply (Hwin i events).
  - intros i events Hin Hw. split; [by apply (Hwin i events)|].
    destruct (Hb (Hwin i events Hin Hw))
      as (i' & events' & before & Htr & Hw' & _ & Hbefore).
    exists before. rewrite Htr in Hin.
    apply elem_of_app in Hin as [Hin|Hin].
    { apply Hbefore in Hin as [_ Hin]. congruence. }
    apply elem_of_cons in Hin as [[= -> ->]|Hin]; [done|].
    by apply broadcasts_not_BotMoved in Hin.
  - intros Hno Hall. apply He; [|done]. intros j [_ Hj]. by apply Hall.
  - intros Hr. split.
    + apply Hc. by rewrite Hr.
    + intros i Hi Hi'. apply (Hd Hr); [lia|done].
Qed.

(** *** [play] *)

Lemma play_rounds_cons gm gt rest u w :
  play_rounds gm (gt :: rest) u w =
  let r := play_round gm gt u w in
  match returned r with
  | Raise e => Run (Raise e) (universe_after r) (world_after r) (trace r)
  | Ok false => Run (Ok tt) (universe_after r) (world_after r) (trace r)
  | Ok true =>
      let r' := play_rounds gm rest (universe_after r) (world_after r) in
      Run (returned r') (universe_after r') (world_after r')
          (trace r ++ trace r')
  end.
Proof.
  cbn [play_rounds]. rewrite bind_unfold. cbv zeta.
  destruct (returned (play_round gm gt u w)) as [[]|e]; try done.
  cbn. by rewrite app_nil_r.
Qed.

(** The loop of [play] over the rounds [s .. s+len-1], entered after the
    rounds before [s]: it goes on as long as rounds return [True]. *)
Lemma play_rounds_spec gm u w len : ∀ s n,
  s ≤ n ≤ s + len →
  (∀ k, s ≤ k < n → returned (round_run gm k u w) = Ok true) →
  let a := after_rounds gm s u w in
  let r := play_rounds gm (Z.of_nat <$> seq s len)
                       (universe_after a) (world_after a) in
  let p := Run (returned r) (universe_after r) (world_after r)
               (trace a ++ trace r) in
  (n = s + len → p = after_rounds gm n u w) ∧
  (n < s + len → returned (round_run gm n u w) = Ok false →
     p = after_rounds gm (S n) u w) ∧
  (n < s + len → ∀ e, returned (round_run gm n u w) = Raise e →
     p = Run (Raise e) (universe_after (after_rounds gm (S n) u w))
             (world_after (after_rounds gm (S n) u w))
             (trace (after_rounds gm (S n) u w))).
Proof.
  induction len as [|len IH]; intros s n Hn Htrue; cbv zeta.
  { assert (n = s) as -> by lia. cbn. rewrite app_nil_r.
    split; [|split]; try lia. intros _.
    assert (returned (after_rounds gm s u w) = Ok tt) as Hret
      by (by destruct s).
    rewrite <-Hret. by destruct (after_rounds gm s u w). }
  cbn [seq fmap list_fmap]. rewrite play_rounds_cons. cbv zeta.
  change (play_round gm (Z.of_nat s) (universe_after (after_rounds gm s u w))
            (world_after (after_rounds gm s u w)))
    with (round_run gm s u w).
  destruct (decide (n = s)) as [->|Hne].
  - split; [lia|]. split.
    + intros _ ->. cbn. done.
    + intros _ e ->. cbn. done.
  - rewrite (Htrue s) by lia.
    specialize (IH (S s) n ltac:(lia) ltac:(intros; apply Htrue; lia)).
    cbv zeta in IH. cbn [after_rounds universe_after world_after trace] in IH.
    change (play_round gm (Z.of_nat s) (universe_after (after_rounds gm s u w))
              (world_after (after_rounds gm s u w)))
      with (round_run gm s u w) in IH.
    rewrite <-(assoc_L (++)) in IH. cbn [universe_after world_after trace returned].
    destruct IH as (IH1 & IH2 & IH3).
    split; [|split].
    + intros ?. apply IH1. lia.
    + intros ?. apply IH2. lia.
    + intros ?. apply IH3. lia.
Qed.

(** C5. With a number of registered teams that is not the number of
    teams of the universe, [play] raises its [IndexError] and does
    nothing else: no call is made and the universe and the world are as
    they were.  With equal numbers it plays the rounds [0 .. game_time-1]
    one after the other with [play_round] as long as each returns
    [True]: after [game_time] such rounds it returns; at the first round
    that returns [False] it returns at once; a round that raises ends
    [play] with its exception. *)
Theorem play_spec gm u w :
  (length (player_teams gm) ≠ length (teams u) →
     play gm u w =
     Run (Raise (IndexError (TeamMismatch (length (player_teams gm))
                                          (length (teams u))))) u w []) ∧
  (length (player_teams gm) = length (teams u) →
     ∀ n, n ≤ Z.to_nat (game_time gm) →
       (∀ k, k < n → returned (round_run gm k u w) = Ok true) →
       (n = Z.to_nat (game_time gm) → play gm u w = after_rounds gm n u w) ∧
       (n < Z.to_nat (game_time gm) →
          returned (round_run gm n u w) = Ok false →
          play gm u w = after_rounds gm (S n) u w) ∧
       (n < Z.to_nat (game_time gm) →
          ∀ e, returned (round_run gm n u w) = Raise e →
          play gm u w =
          Run (Raise e) (universe_after (after_rounds gm (S n) u w))
              (world_after (after_rounds gm (S n) u w))
              (trace (after_rounds gm (S n) u w)))).
Proof.
  unfold play. rewrite bind_unfold. cbn.
  split; intros Hlen; case_decide; try done.
  intros n Hn Htrue.
  pose proof (play_rounds_spec gm u w (Z.to_nat (game_time gm)) 0 n
                ltac:(lia) ltac:(intros; apply Htrue; lia)) as Hspec.
  cbv zeta in Hspec.
  cbn [after_rounds universe_after world_after trace] in Hspec.
  unfold range.
  by destruct (play_rounds gm (Z.of_nat <$> seq 0 (Z.to_nat (game_time gm))) u w).
Qed.

(** *** The handlers *)

Lemma keys_dom (d : gmap Move Pos) (x : Move) : x ∈ keys d ↔ x ∈ dom d.
Proof.
  unfold keys. rewrite elem_of_dom, list_elem_of_fmap. split.
  - intros ([x' p] & -> & Hin). apply elem_of_map_to_list in Hin. by exists p.
  - intros [p Hp]. exists (x, p). split; [done|].
    by apply elem_of_map_to_list.
Qed.

Lemma NoDup_keys (d : gmap Move Pos) : NoDup (keys d).
Proof. apply NoDup_fst_map_to_list. Qed.

Lemma remove_None (x : Move) l : remove x l = None ↔ x ∉ l.
Proof.
  induction l as [|y l IH]; cbn.
  - split; [intros _ H; by apply elem_of_nil in H|done].
  - case_decide as Hxy.
    + split; [done|]. intros H. destruct H. subst. left.
    + rewrite not_elem_of_cons, <-IH.
      destruct (remove x l); intuition congruence.
Qed.

Lemma remove_Some (x : Move) l l' :
  remove x l = Some l' → NoDup l →
  x ∈ l ∧ NoDup l' ∧ ∀ y, y ∈ l' ↔ y ∈ l ∧ y ≠ x.
Proof.
  revert l'. induction l as [|y l IH]; intros l'; cbn; [done|].
  intros Hrem Hnd. apply NoDup_cons in Hnd as [Hy Hnd].
  case_decide as Hxy.
  - injection Hrem as <-. subst y. split; [left|]. split; [done|].
    intros z. rewrite elem_of_cons. split.
    + intros Hz. split; [by right|]. by intros ->.
    + by intros [[->|Hz] Hne].
  - destruct (remove x l) as [l''|] eqn:E; [|done]. injection Hrem as <-.
    destruct (IH l'' eq_refl Hnd) as (Hx & Hnd' & Hiff).
    split; [by right|]. split.
    + apply NoDup_cons. split; [|done]. rewrite Hiff. tauto.
    + intros z. rewrite !elem_of_cons, Hiff. intuition congruence.
Qed.

(** What the second handler would do: one [TeamWins] for another team
    than that of the bot, and nothing else. *)
Lemma disconnected_handler_run bot u w :
  disconnected_handler bot u w
  = Run (Ok [TeamWins (py_not (team_index bot))]) u w [] ∧
  py_not (team_index bot) ≠ team_index bot.
Proof. split; [done|]. unfold py_not. case_decide; lia. Qed.

(** What the first handler would do where staying is legal: it draws a
    move from the legal moves other than [stop], or takes [stop] when
    there is no other, moves the bot, and adds one [TimeoutEvent] of the
    team of the bot to the events of the move. *)
Lemma fallback_handler_run i bot u w :
  stop ∈ dom (get_legal_moves u (current_pos bot)) →
  ∃ candidates move,
    NoDup candidates ∧
    (∀ m, m ∈ candidates ↔
          m ∈ dom (get_legal_moves u (current_pos bot)) ∧
          (m = stop → ∀ m', m' ∈ dom (get_legal_moves u (current_pos bot)) →
                            m' = stop)) ∧
    candidates !! ((random w).1 mod length candidates) = Some move ∧
    fallback_handler i bot u w =
    match move_bot u i move with
    | Ok (events, u') =>
        Run (Ok (events ++ [TimeoutEvent (team_index bot)])) u' (random w).2
            [MoveBot i move]
    | Raise e => Run (Raise e) u (random w).2 [MoveBot i move]
    end.
Proof.
  intros Hstop. unfold fallback_handler. rewrite bind_unfold. cbn.
  set (d := get_legal_moves u (current_pos bot)) in *.
  destruct (remove stop (keys d)) as [others|] eqn:Hrem.
  2:{ apply remove_None in Hrem. by rewrite keys_dom in Hrem. }
  apply remove_Some in Hrem as (_ & Hnd & Hiff); [|apply NoDup_keys].
  set (candidates := match others with [] => [stop] | _ => others end).
  assert (candidates ≠ []) as Hne by (unfold candidates; by destruct others).
  destruct (lookup_lt_is_Some_2 candidates
              ((random w).1 mod length candidates)) as [move Hmove].
  { apply Nat.mod_upper_bound. by destruct candidates. }
  exists candidates, move. split; [|split; [|split]].
  - unfold candidates. destruct others; [|done].
    apply NoDup_singleton.
  - intros m. unfold candidates. clear candidates Hne Hmove.
    destruct others as [|o os].
    + rewrite list_elem_of_singleton. split.
      * intros ->. split; [done|]. intros _ m' Hm'.
        destruct (decide (m' = stop)) as [|Hm's]; [done|].
        assert (m' ∈ @nil Move) as Hin
          by (apply Hiff; by rewrite keys_dom).
        by apply elem_of_nil in Hin.
      * intros [Hm _]. destruct (decide (m = stop)) as [|Hms]; [done|].
        assert (m ∈ @nil Move) as Hin
          by (apply Hiff; by rewrite keys_dom).
        by apply elem_of_nil in Hin.
    + rewrite Hiff, keys_dom. split; [|intros [Hm Hall]].
      * intros [Hm Hms]. split; [done|]. by intros ->.
      * split; [done|]. intros ->.
        assert (o ∈ o :: os) as Ho' by left.
        apply Hiff in Ho' as [Ho' Hos]. rewrite keys_dom in Ho'.
        auto.
  - done.
  - rewrite bind_unfold. unfold random_choice. fold candidates.
    destruct (random w) as [r w'] eqn:Hr. cbn in Hmove |- *.
    rewrite Hmove. cbn. rewrite bind_unfold. unfold call_move_bot.
    by destruct (move_bot u i move) as [[events u']|e].
Qed.

(** C9. The first handler removes [stop] from the legal moves before it
    chooses: where [stop] is not a legal move of the bot it raises the
    [ValueError] of [remove], without a move of the bot, so it returns
    events only where [stop] is legal; and a bot whose request ends in a
    timeout or an illegal move where [stop] is not legal is not moved:
    the [try] statement raises and leaves the universe as it was. *)
Theorem fallback_requires_stop i bot u w :
  (stop ∉ dom (get_legal_moves u (current_pos bot)) →
     fallback_handler i bot u w = Run (Raise ValueError) u w []) ∧
  (∀ events,
     returned (fallback_handler i bot u w) = Ok events →
     stop ∈ dom (get_legal_moves u (current_pos bot))) ∧
  (∀ pt : PlayerTeam,
     stop ∉ dom (get_legal_moves u (current_pos bot)) →
     (_get_move pt (index bot) u w).1 = Raise PlayerTimeout ∨
     (_get_move pt (index bot) u w).1 = Raise IllegalMoveException ∨
     (∃ move, (_get_move pt (index bot) u w).1 = Ok move ∧
              move_bot u i move = Raise IllegalMoveException) →
     (∃ e, returned (resolve pt i bot u w) = Raise e) ∧
     universe_after (resolve pt i bot u w) = u).
Proof.
  assert (stop ∉ dom (get_legal_moves u (current_pos bot)) →
          fallback_handler i bot u w = Run (Raise ValueError) u w []) as Hno.
  { intros Hstop. unfold fallback_handler. rewrite bind_unfold. cbn.
    rewrite <-keys_dom in Hstop. apply remove_None in Hstop.
    by rewrite Hstop. }
  split; [done|]. split.
  - intros events Hret.
    destruct (decide (stop ∈ dom (get_legal_moves u (current_pos bot))))
      as [|Hstop]; [done|].
    by rewrite (Hno Hstop) in Hret.
  - intros pt _ Hfail. rewrite resolve_cases.
    destruct (_get_move pt (index bot) u w) as [[move|e] w']; cbn in *.
    + destruct Hfail as [?|[?|(move' & [= <-] & ->)]]; try done. eauto.
    + eauto.
Qed.

(** The body of the [try] statement raises: the iteration ends with the
    [NameError] of the first clause. *)
Lemma bot_move_NameError gm gt i bot (pt : PlayerTeam) u w :
  player_teams gm !! team_index bot = Some pt →
  (∃ e, (_get_move pt (index bot) u w).1 = Raise e) ∨
  (∃ move e, (_get_move pt (index bot) u w).1 = Ok move ∧
             move_bot u i move = Raise e) →
  let s := bot_move gm gt i bot u w in
  returned s = Raise (NameError "uni"%string) ∧ universe_after s = u ∧
  (((∃ e, (_get_move pt (index bot) u w).1 = Raise e) ∧
    trace s = [GetMove pt (index bot) u]) ∨
   (∃ move e, (_get_move pt (index bot) u w).1 = Ok move ∧
              move_bot u i move = Raise e ∧
              trace s = [GetMove pt (index bot) u; MoveBot i move])).
Proof.
  intros Hpt Hfail. unfold bot_move. cbv zeta. rewrite bind_unfold.
  unfold getitem. rewrite Hpt. cbn. rewrite bind_unfold, resolve_cases.
  destruct (_get_move pt (index bot) u w) as [[move|e] w']; cbn in *.
  - destruct Hfail as [[e [=]]|(move' & e & [= <-] & He)].
    rewrite He. cbn. split; [done|]. split; [done|]. right. eauto.
  - split; [done|]. split; [done|]. left. eauto.
Qed.

(** C2, on the code as it is.  When the request for the move of a bot
    ends in a timeout or in an illegal move, no fallback move is chosen
    or applied and no [TimeoutEvent] is produced: the iteration raises
    [NameError] for the name [uni], the universe is as it was, nothing
    is broadcast, and the only call of [move_bot] is that of the refused
    move. *)
Theorem fallback_never_entered gm gt i bot (pt : PlayerTeam) u w :
  player_teams gm !! team_index bot = Some pt →
  (_get_move pt (index bot) u w).1 = Raise PlayerTimeout ∨
  (_get_move pt (index bot) u w).1 = Raise IllegalMoveException ∨
  (∃ move, (_get_move pt (index bot) u w).1 = Ok move ∧
           move_bot u i move = Raise IllegalMoveException) →
  let s := bot_move gm gt i bot u w in
  returned s = Raise (NameError "uni"%string) ∧ universe_after s = u ∧
  (trace s = [GetMove pt (index bot) u] ∨
   ∃ move, move_bot u i move = Raise IllegalMoveException ∧
           trace s = [GetMove pt (index bot) u; MoveBot i move]).
Proof.
  intros Hpt Hfail.
  destruct (bot_move_NameError gm gt i bot pt u w Hpt) as (Hr & Hu & Htr).
  { destruct Hfail as [?|[?|(move & ? & ?)]]; eauto. }
  cbv zeta. split; [done|]. split; [done|].
  destruct Htr as [[_ Htr]|(move & e & Hm & He & Htr)]; [by left|right].
  exists move. split; [|done].
  destruct Hfail as [Hf|[Hf|(move' & Hf & Hf')]]; congruence.
Qed.

(** C3, on the code as it is.  When the request for the move of a bot
    ends in [PlayerDisconnected], the universe is as it was, but no
    event is produced and nothing is broadcast: the iteration raises
    [NameError] for the name [uni] after the one call to the player. *)
Theorem disconnect_never_handled gm gt i bot (pt : PlayerTeam) u w :
  player_teams gm !! team_index bot = Some pt →
  (_get_move pt (index bot) u w).1 = Raise PlayerDisconnected →
  let s := bot_move gm gt i bot u w in
  returned s = Raise (NameError "uni"%string) ∧ universe_after s = u ∧
  trace s = [GetMove pt (index bot) u].
Proof.
  intros Hpt Hfail.
  destruct (bot_move_NameError gm gt i bot pt u w Hpt) as (Hr & Hu & Htr);
    [eauto|].
  cbv zeta. split; [done|]. split; [done|].
  destruct Htr as [[_ ?]|(move & e & Hm & _)]; [done|congruence].
Qed.

End WithCollaborators.

(** *** Runs in the corridor *)

Import Corridor.

(** The second bot steps on the food: the round returns [False].  Both
    bots stay where they are: the round returns [True]. *)
Lemma play_round_TeamWins_witness :
  returned (@play_round collaborators
              (master (Moves 1) (Moves (-1)) 5 [7]) 0 (two_bots false) 0)
  = Ok false ∧
  returned (@play_round collaborators
              (master (Moves 0) (Moves 0) 5 [7]) 0 (two_bots false) 0)
  = Ok true.
Proof.
  split.
  - apply (proj1 (@play_round_TeamWins collaborators
             (master (Moves 1) (Moves (-1)) 5 [7]) 0 (two_bots false) 0)).
    apply winning_move_exists. vm_compute. reflexivity.
  - apply (proj1 (proj2 (proj2 (@play_round_TeamWins collaborators
             (master (Moves 0) (Moves 0) 5 [7]) 0 (two_bots false) 0)))).
    + intros i events Hin.
      destruct (TeamWins_in events) eqn:Hw; [|reflexivity].
      assert (existsb is_winning_move
                (trace (@play_round collaborators
                          (master (Moves 0) (Moves 0) 5 [7]) 0
                          (two_bots false) 0)) = true) as Hex
        by (apply winning_move_exists; eauto).
      vm_compute in Hex. discriminate Hex.
    + intros i Hi. apply move_of_exists.
      destruct i as [|[|i]]; [vm_compute; reflexivity..|cbn in Hi; lia].
Defined.

(** The second player times out: its bot is not moved, and the round
    ends with the [NameError]. *)
Lemma fallback_never_entered_witness :
  (let s := @bot_move collaborators (master (Moves 1) TimesOut 5 [7]) 0 1
              right_bot (two_bots false) 0 in
   returned s = Raise (NameError "uni"%string) ∧
   universe_after s = two_bots false ∧
   (trace s = [@GetMove collaborators TimesOut 1 (two_bots false)] ∨
    ∃ move, step (two_bots false) 1 move = Raise IllegalMoveException ∧
            trace s = [@GetMove collaborators TimesOut 1 (two_bots false);
                       @MoveBot collaborators 1 move])) ∧
  returned (@play_round collaborators (master (Moves 1) TimesOut 5 [7]) 0
              (two_bots false) 0)
  = Raise (NameError "uni"%string).
Proof.
  split; [|vm_compute; reflexivity].
  apply (@fallback_never_entered collaborators
           (master (Moves 1) TimesOut 5 [7]) 0 1 right_bot TimesOut
           (two_bots false) 0).
  - reflexivity.
  - left. reflexivity.
Defined.

(** The first player has disconnected on the first move of the first
    round: no [TeamWins] is produced, and [play] ends with the
    [NameError]. *)
Lemma disconnect_never_handled_witness :
  (let s := @bot_move collaborators (master Disconnects (Moves 0) 5 [7]) 0 0
              left_bot (two_bots false) 0 in
   returned s = Raise (NameError "uni"%string) ∧
   universe_after s = two_bots false ∧
   trace s = [@GetMove collaborators Disconnects 0 (two_bots false)]) ∧
  returned (@play collaborators (master Disconnects (Moves 0) 5 [7])
              (two_bots false) 0)
  = Raise (NameError "uni"%string).
Proof.
  split; [|vm_compute; reflexivity].
  apply (@disconnect_never_handled collaborators
           (master Disconnects (Moves 0) 5 [7]) 0 0 left_bot Disconnects
           (two_bots false) 0).
  - reflexivity.
  - reflexivity.
Defined.

(** One registered team for the two teams of the corridor; and two
    rounds in which nobody wins. *)
Lemma play_spec_witness :
  @play collaborators
    (@Build_GameMaster collaborators 5 2 [Moves 0] [7]) (two_bots false) 0
  = @Run collaborators _ (Raise (IndexError (TeamMismatch 1 2)))
      (two_bots false) 0 [] ∧
  @play collaborators (master (Moves 0) (Moves 0) 2 [7]) (two_bots false) 0
  = @after_rounds collaborators (master (Moves 0) (Moves 0) 2 [7]) 2
      (two_bots false) 0.
Proof.
  split.
  - apply (proj1 (@play_spec collaborators
             (@Build_GameMaster collaborators 5 2 [Moves 0] [7])
             (two_bots false) 0)).
    cbn. lia.
  - assert (∀ k, k < 2 →
              returned (@round_run collaborators
                          (master (Moves 0) (Moves 0) 2 [7]) k
                          (two_bots false) 0) = Ok true) as Htrue.
    { intros k Hk. destruct k as [|[|k]]; [vm_compute; reflexivity..|lia]. }
    destruct (proj2 (@play_spec collaborators
                       (master (Moves 0) (Moves 0) 2 [7]) (two_bots false) 0)
                eq_refl 2 (le_n 2) Htrue) as [Hall _].
    exact (Hall eq_refl).
Defined.

(** On a slippery floor staying is not legal and the handler raises. *)
Lemma fallback_requires_stop_witness :
  @fallback_handler collaborators 1 right_bot (two_bots true) 0
  = @Run collaborators _ (Raise ValueError) (two_bots true) 0 [].
Proof.
  apply (proj1 (@fallback_requires_stop collaborators 1 right_bot
                  (two_bots true) 0)).
  intros Hin. apply elem_of_dom in Hin as [p Hp]. vm_compute in Hp. done.
Defined.

End GameMasterSpec.

(* ===================================================================== *)
(** ** More properties of the message protocol *)
(* ===================================================================== *)

Module MessagesMore.
Import Messages MessagesSpec.

#[local] Open Scope string_scope.
#[local] Open Scope list_scope.

Section WithChannel.
Context {Channel : Type}.
Implicit Types m : message Channel.
Implicit Types d : gmap string value.

Lemma load_Ok_inv d m :
  @_load_message Channel d = Ok m →
  dom d = list_to_set (init_params (class_of m)) ∧ dict m = d ∧
  m = match m with Query a b c _ => Query_init a b c | _ => m end.
Proof.
  intros H. apply load_from_Ok in H as (cls & _ & H).
  apply construct_Ok in H as (Hd & <- & ? & ?). done.
Qed.

Lemma lookups_functional d params (vs vs' : list value) :
  Forall2 (λ p v, d !! p = Some v) params vs →
  Forall2 (λ p v, d !! p = Some v) params vs' →
  vs = vs'.
Proof.
  intros H. revert vs'. induction H as [|p v ps vs Hp _ IH]; intros vs' H'.
  - by inversion H'.
  - inversion H' as [|? v' ? vs'' Hp' H'']; subst. f_equal; [congruence|auto].
Qed.

(** X1. Loading, then taking the dict, gives the dict back: a loaded
    message has the given dict, holds under each parameter of its class
    the value the dict has under that key, and has no channel. *)
Theorem load_then_dict d m :
  @_load_message Channel d = Ok m →
  dict m = d ∧
  Forall2 (λ p v, d !! p = Some v) (init_params (class_of m)) (fields m) ∧
  ∀ method params id ch, m = Query method params id ch → ch = None.
Proof.
  intros H. apply load_Ok_inv in H as (_ & Hd & Hm).
  split; [done|]. split.
  - rewrite <-Hd. apply lookups_dict.
  - intros method params id ch ->. by injection Hm.
Qed.

(** X2. The dict of a message determines its class and its fields
    (method, params, id, result, error): two messages with the same dict
    differ at most in the channel of a Query. *)
Theorem dict_determines_message m m' :
  dict m = dict m' →
  class_of m = class_of m' ∧ fields m = fields m'.
Proof.
  intros H.
  assert (class_of m = class_of m') as Hc.
  { apply (@init_params_inj). rewrite <-!dom_dict. by rewrite H. }
  split; [done|].
  apply (lookups_functional (dict m) (init_params (class_of m))).
  - apply lookups_dict.
  - rewrite Hc, H. apply lookups_dict.
Qed.

(** X3. The order in which [_load_message] tries the classes does not
    matter: with the four classes in any order, the loop returns the
    same message or raises the same error. *)
Theorem load_order_irrelevant (classes : list msg_class) d :
  classes ≡ₚ _defined_messages →
  @load_from Channel classes d = _load_message d.
Proof.
  intros Hperm. unfold _load_message.
  destruct (@load_from Channel _defined_messages d) as [m|e] eqn:E.
  - apply load_from_Ok. apply load_from_Ok in E as (cls & Hin & Hc).
    exists cls. split; [|done]. by rewrite Hperm.
  - apply load_from_Raise. apply load_from_Raise in E as [-> H].
    split; [done|]. intros cls Hin. apply H. by rewrite <-Hperm.
Qed.

(** X4. A dict with a key that is no parameter of any class, with fewer
    than two keys or with more than three keys is no message: loading it
    raises the [ValueError] that carries it. *)
Theorem load_rejects_by_keys d :
  (∃ k, k ∈ dom d ∧ k ∉ ["method"; "params"; "id"; "result"; "error"]) ∨
  size d < 2 ∨ 3 < size d →
  @_load_message Channel d = Raise (ValueError d).
Proof.
  intros H. apply load_from_Raise. split; [done|]. intros cls _ Hd.
  destruct H as [(k & Hk & Hno)|Hsize].
  - apply Hno. rewrite Hd in Hk. apply elem_of_list_to_set in Hk.
    destruct cls; cbn [init_params] in Hk;
      rewrite ?elem_of_cons, ?elem_of_nil in *; intuition subst; tauto.
  - rewrite <-size_dom, Hd in Hsize.
    destruct cls; vm_compute in Hsize; lia.
Qed.

(** X5. What a Query answers with: [response] builds the Response
    with the given result and the id of the query, which is a response
    and wants none; [error_msg] builds the Error with the given error
    and the id of the query, which wants no response and is a response
    exactly when this id is not [None] (the error answer to a query
    whose id is [None] does not count as a response). *)
Theorem answers_are_responses (method params id : value)
    (ch : option Channel) :
  let q := Query method params id ch in
  (∀ res,
     response q res = Ok (Response res id) ∧
     class_of (@Response Channel res id) = CResponse ∧
     is_response (@Response Channel res id) = true ∧
     wants_response (@Response Channel res id) = false) ∧
  (∀ error,
     error_msg q error = Ok (Error error id) ∧
     class_of (@Error Channel error id) = CError ∧
     wants_response (@Error Channel error id) = false ∧
     (is_response (@Error Channel error id) = true ↔ id ≠ VNone)).
Proof.
  cbv zeta. split.
  - intros res. by split_and!.
  - intros error. split_and!; try done.
    cbn. split; [by intros ? ->|]. by destruct id.
Qed.

(** X6. A Query and a Notification differ by the key [id] only: the
    dict of a Query without [id] loads as the Notification with the same
    method and params, and the dict of a Notification with an [id] added
    loads as the Query; the dict of a Response or of an Error without
    its [id] does not load. *)
Theorem id_key_switches_class (a b i : value) (ch : option Channel) :
  @_load_message Channel (delete "id" (dict (Query a b i ch)))
  = Ok (Notification a b) ∧
  @_load_message Channel (<["id" := i]> (dict (@Notification Channel a b)))
  = Ok (Query a b i None) ∧
  @_load_message Channel (delete "id" (dict (@Response Channel a i)))
  = Raise (ValueError (delete "id" (dict (@Response Channel a i)))) ∧
  @_load_message Channel (delete "id" (dict (@Error Channel a i)))
  = Raise (ValueError (delete "id" (dict (@Error Channel a i)))).
Proof. repeat split. Qed.

(** X7. How a receiver can tell what it has loaded from the keys of the
    dict: the message wants a response exactly when the dict has the
    keys [method] and [id]; it is a response exactly when the dict has
    the key [result], or the key [error] and an [id] that is not
    [None]. *)
Theorem loaded_kind_by_keys d m :
  @_load_message Channel d = Ok m →
  (wants_response m = true ↔ "method" ∈ dom d ∧ "id" ∈ dom d) ∧
  (is_response m = true ↔
   "result" ∈ dom d ∨ ("error" ∈ dom d ∧ d !! "id" ≠ Some VNone)).
Proof.
  intros H. apply load_Ok_inv in H as (Hd & Hdict & _).
  assert (∀ k, k ∈ dom d ↔ k ∈ init_params (class_of m)) as Hk
    by (intros k; by rewrite Hd, elem_of_list_to_set).
  assert (∀ p v, dict m !! p = Some v → d !! p = Some v) as Hl
    by (by rewrite Hdict).
  rewrite !Hk.
  destruct m as [a b c ch|a b|a c|a c]; cbn [class_of init_params
    wants_response is_response];
    rewrite ?elem_of_cons, ?elem_of_nil.
  - intuition discriminate.
  - intuition discriminate.
  - intuition discriminate.
  - rewrite (Hl "id" c eq_refl).
    split; [intuition discriminate|]. split.
    + intros Hc. right. split; [auto|]. intros [= ->]. done.
    + intros [H|[_ H]]; [intuition discriminate|].
      by destruct c.
Qed.

End WithChannel.

(** The dict of a Response loads and gives the dict back. *)
Lemma load_then_dict_witness :
  dict (@Response unit (VInt 1) VNone)
  = {[ "result" := VInt 1; "id" := VNone ]} ∧
  Forall2 (λ p v, ({[ "result" := VInt 1; "id" := VNone ]}
                     : gmap string value) !! p = Some v)
          ["result"; "id"] [VInt 1; VNone] ∧
  ∀ method params id ch,
    @Response unit (VInt 1) VNone = Query method params id ch → ch = None.
Proof.
  exact (@load_then_dict unit {[ "result" := VInt 1; "id" := VNone ]}
           (Response (VInt 1) VNone) eq_refl).
Defined.

(** Two queries that differ in their channel have the same dict. *)
Lemma dict_determines_message_witness :
  class_of (@Query nat (VStr "move") (VList []) (VInt 7) (Some 3))
  = class_of (@Query nat (VStr "move") (VList []) (VInt 7) None) ∧
  fields (@Query nat (VStr "move") (VList []) (VInt 7) (Some 3))
  = fields (@Query nat (VStr "move") (VList []) (VInt 7) None).
Proof.
  exact (@dict_determines_message nat
           (Query (VStr "move") (VList []) (VInt 7) (Some 3))
           (Query (VStr "move") (VList []) (VInt 7) None) eq_refl).
Defined.

(** The classes tried in the reverse order. *)
Lemma load_order_irrelevant_witness :
  @load_from unit [CError; CResponse; CNotification; CQuery]
    {[ "method" := VStr "exit"; "params" := VNone ]}
  = _load_message {[ "method" := VStr "exit"; "params" := VNone ]}.
Proof.
  apply (@load_order_irrelevant unit).
  exact (reverse_Permutation _defined_messages).
Defined.

(** A dict with the four keys of a method call on an object. *)
Lemma load_rejects_by_keys_witness :
  @_load_message unit
    {[ "self" := VNone; "method" := VStr "exit"; "params" := VNone;
       "id" := VInt 1 ]}
  = Raise (ValueError
             {[ "self" := VNone; "method" := VStr "exit"; "params" := VNone;
                "id" := VInt 1 ]}).
Proof.
  apply (@load_rejects_by_keys unit). right. right. vm_compute. lia.
Defined.

(** An Error without id is no response; it loads as what it is. *)
Lemma loaded_kind_by_keys_witness :
  (wants_response (@Error unit (VStr "lost") VNone) = true ↔
   "method" ∈ dom ({[ "error" := VStr "lost"; "id" := VNone ]}
                     : gmap string value) ∧
   "id" ∈ dom ({[ "error" := VStr "lost"; "id" := VNone ]}
                 : gmap string value)) ∧
  (is_response (@Error unit (VStr "lost") VNone) = true ↔
   "result" ∈ dom ({[ "error" := VStr "lost"; "id" := VNone ]}
                     : gmap string value) ∨
   ("error" ∈ dom ({[ "error" := VStr "lost"; "id" := VNone ]}
                    : gmap string value) ∧
    ({[ "error" := VStr "lost"; "id" := VNone ]} : gmap string value)
      !! "id" ≠ Some VNone)).
Proof.
  exact (@loaded_kind_by_keys unit
           {[ "error" := VStr "lost"; "id" := VNone ]}
           (Error (VStr "lost") VNone) eq_refl).
Defined.

End MessagesMore.

(* ===================================================================== *)
(** ** More properties of the game master *)
(* ===================================================================== *)

Module GameMasterMore.
Import GameMaster GameMasterSpec.

Section WithCollaborators.
Context {C : Collaborators}.
Implicit Types (u : Universe) (w : World) (gm : GameMaster) (gt : Z).
Implicit Types (i : nat) (bot : Bot Pos) (e : exn) (a : action).
Implicit Types (events : list (UniverseEvent BoardEvent)).

(** The lookups of lines 124 to 126 succeed exactly when every index is
    that of a team of the universe. *)
Lemma lookup_timeout_teams_Ok (ts : list nat) u w :
  Forall (λ t, t < length (teams u)) ts →
  lookup_timeout_teams ts u w = Run (Ok tt) u w [].
Proof.
  induction 1 as [|t ts Ht _ IH]; [done|].
  cbn [lookup_timeout_teams]. rewrite bind_unfold. cbn. rewrite bind_unfold.
  destruct (getitem_cases (teams u) t u w) as [(x & _ & ->)|[Hn _]].
  - cbn. by rewrite IH.
  - apply lookup_ge_None in Hn. lia.
Qed.

Lemma lookup_timeout_teams_Raise (ts : list nat) u w :
  Exists (λ t, length (teams u) ≤ t) ts →
  lookup_timeout_teams ts u w = Run (Raise (IndexError OutOfRange)) u w [].
Proof.
  intros Hex.
  destruct (lookup_timeout_teams_cases ts u w) as [Hok|Hr]; [|done].
  exfalso. induction ts as [|t ts IH]; [by inversion Hex|].
  cbn [lookup_timeout_teams] in Hok. rewrite bind_unfold in Hok. cbn in Hok.
  rewrite bind_unfold in Hok.
  destruct (getitem_cases (teams u) t u w) as [(x & Hx & Hg)|[Hn Hg]];
    rewrite Hg in Hok; cbn in Hok; [|done].
  apply lookup_lt_Some in Hx.
  inversion Hex as [?? Ht|?? Hts]; subst; [lia|].
  apply IH; [done|].
  destruct (lookup_timeout_teams_cases ts u w) as [->| Hr]; [done|].
  rewrite Hr in Hok. done.
Qed.

Lemma elem_of_filter_TimeoutEvent events (t : nat) :
  t ∈ filter_TimeoutEvent events ↔ TimeoutEvent t ∈ events.
Proof.
  unfold filter_TimeoutEvent. rewrite list_elem_of_omap. split.
  - intros ([] & Hin & [=]). by subst.
  - intros Hin. by exists (TimeoutEvent t).
Qed.

Lemma broadcast_trace (vs : list Viewer) gt i events u w :
  returned (broadcast vs gt i events u w) = Ok tt ∧
  universe_after (broadcast vs gt i events u w) = u ∧
  trace (broadcast vs gt i events u w)
  = (λ v, Observe v gt i u events) <$> vs.
Proof.
  destruct (broadcast_run vs gt i events u w) as [w' ->]. done.
Qed.

(** X8. The move a player gives and the board accepts: the player is
    asked once with the universe as it is, the board is moved once by
    this very move, and every viewer is shown the events of the move
    with the universe the move has left. *)
Theorem accepted_move_is_applied gm gt i bot (pt : PlayerTeam) u w
    (move : Move) events (u' : Universe) :
  player_teams gm !! team_index bot = Some pt →
  (_get_move pt (index bot) u w).1 = Ok move →
  move_bot u i move = Ok (events, u') →
  (∀ t, TimeoutEvent t ∈ events → t < length (teams u')) →
  let s := bot_move gm gt i bot u w in
  returned s = Ok events ∧ universe_after s = u' ∧
  trace s = [GetMove pt (index bot) u; MoveBot i move; BotMoved i events]
            ++ broadcasts gm gt i u' events.
Proof.
  intros Hpt Hget Hmove Hts. unfold bot_move. cbv zeta.
  rewrite bind_unfold. unfold getitem. rewrite Hpt. cbn.
  rewrite bind_unfold, resolve_cases.
  destruct (_get_move pt (index bot) u w) as [r w1]. cbn in Hget. subst r.
  rewrite Hmove. cbn. rewrite bind_unfold.
  rewrite lookup_timeout_teams_Ok.
  2:{ apply Forall_forall. intros t Ht. apply Hts.
      by apply elem_of_filter_TimeoutEvent. }
  cbn. rewrite bind_unfold. cbn. rewrite bind_unfold.
  destruct (broadcast_run (viewers gm) gt i events u' w1) as [w' ->].
  cbn. by rewrite app_nil_r.
Qed.

(** X9. A [TimeoutEvent] among the events of a move that names no team
    of the universe: the iteration raises [IndexError] after the board
    has been moved, and nothing is shown to the viewers. *)
Theorem unknown_timeout_team gm gt i bot (pt : PlayerTeam) u w
    (move : Move) events (u' : Universe) :
  player_teams gm !! team_index bot = Some pt →
  (_get_move pt (index bot) u w).1 = Ok move →
  move_bot u i move = Ok (events, u') →
  (∃ t, TimeoutEvent t ∈ events ∧ length (teams u') ≤ t) →
  let s := bot_move gm gt i bot u w in
  returned s = Raise (IndexError OutOfRange) ∧ universe_after s = u' ∧
  trace s = [GetMove pt (index bot) u; MoveBot i move].
Proof.
  intros Hpt Hget Hmove (t & Hin & Ht). unfold bot_move. cbv zeta.
  rewrite bind_unfold. unfold getitem. rewrite Hpt. cbn.
  rewrite bind_unfold, resolve_cases.
  destruct (_get_move pt (index bot) u w) as [r w1]. cbn in Hget. subst r.
  rewrite Hmove. cbn. rewrite bind_unfold.
  rewrite lookup_timeout_teams_Raise; [by cbn|].
  apply Exists_exists. exists t. split; [|done].
  by apply elem_of_filter_TimeoutEvent.
Qed.

(** X10. A bot whose team index is that of no registered team: the
    iteration raises [IndexError] before anybody is asked; when this is
    the first bot, so does the round, with nothing done. *)
Theorem unregistered_team gm gt u w :
  (∀ i bot, player_teams gm !! team_index bot = None →
     bot_move gm gt i bot u w = Run (Raise (IndexError OutOfRange)) u w []) ∧
  (∀ bot, bots u !! 0 = Some bot →
     player_teams gm !! team_index bot = None →
     play_round gm gt u w = Run (Raise (IndexError OutOfRange)) u w []).
Proof.
  assert (∀ i bot, player_teams gm !! team_index bot = None →
     bot_move gm gt i bot u w = Run (Raise (IndexError OutOfRange)) u w [])
    as Hstep.
  { intros i bot Hpt. unfold bot_move. rewrite bind_unfold.
    unfold getitem. by rewrite Hpt. }
  split; [done|]. intros bot Hbot Hpt.
  rewrite play_round_unfold.
  destruct (bots u) as [|b bs] eqn:Hbots; [done|].
  cbn [length seq]. rewrite play_round_from_cons, Hbots. cbn in Hbot |- *.
  injection Hbot as ->. by rewrite Hstep.
Qed.

(** *** The exceptions that leave a round *)

Lemma bot_move_raises gm gt i bot u w e :
  returned (bot_move gm gt i bot u w) = Raise e →
  e = NameError "uni"%string ∨ e = IndexError OutOfRange.
Proof.
  unfold bot_move. rewrite bind_unfold.
  destruct (getitem_cases (player_teams gm) (team_index bot) u w)
    as [(pt & _ & ->)|[_ ->]]; cbn; [|intros [= <-]; by right].
  rewrite bind_unfold, resolve_cases.
  destruct (_get_move pt (index bot) u w) as [[move|e'] w1]; cbn;
    [|intros [= <-]; by left].
  destruct (move_bot u i move) as [[events u']|e']; cbn;
    [|intros [= <-]; by left].
  rewrite bind_unfold.
  destruct (lookup_timeout_teams_cases (filter_TimeoutEvent events) u' w1)
    as [-> | ->]; cbn; [|intros [= <-]; by right].
  rewrite bind_unfold. cbn. rewrite bind_unfold.
  destruct (broadcast_run (viewers gm) gt i events u' w1) as [w' ->].
  done.
Qed.

Lemma play_round_from_raises gm gt positions : ∀ u w e,
  returned (play_round_from gm gt positions u w) = Raise e →
  e = NameError "uni"%string ∨ e = IndexError OutOfRange.
Proof.
  induction positions as [|i rest IH]; intros u w e; [done|].
  rewrite play_round_from_cons.
  destruct (bots u !! i) as [bot|]; [|done]. cbv zeta.
  pose proof (bot_move_raises gm gt i bot u w) as Hstep.
  destruct (bot_move gm gt i bot u w) as [[events|e'] u1 w1 tr1]; cbn in *.
  - destruct (TeamWins_in events); [done|]. cbn. apply IH.
  - intros [= <-]. by apply Hstep.
Qed.

Lemma play_rounds_raises gm rounds : ∀ u w e,
  returned (play_rounds gm rounds u w) = Raise e →
  e = NameError "uni"%string ∨ e = IndexError OutOfRange.
Proof.
  induction rounds as [|gt rest IH]; intros u w e; [done|].
  rewrite play_rounds_cons. cbv zeta.
  pose proof (play_round_from_raises gm gt (seq 0 (length (bots u))) u w)
    as Hround.
  rewrite <-play_round_unfold in Hround.
  destruct (play_round gm gt u w) as [[[]|e'] u1 w1 tr1]; cbn in *.
  - apply IH.
  - done.
  - intros [= <-]. by apply Hround.
Qed.

(** X11. The exceptions that leave [play_round] are the [NameError] for
    [uni] and the [IndexError] of a list index; those that leave [play]
    are these two and its own [IndexError].  [PlayerTimeout],
    [PlayerDisconnected] and [IllegalMoveException] never leave
    either. *)
Theorem exceptions_of_play gm gt u w :
  (∀ e, returned (play_round gm gt u w) = Raise e →
        e = NameError "uni"%string ∨ e = IndexError OutOfRange) ∧
  (∀ e, returned (play gm u w) = Raise e →
        e = NameError "uni"%string ∨ e = IndexError OutOfRange ∨
        e = IndexError (TeamMismatch (length (player_teams gm))
                                     (length (teams u)))).
Proof.
  split.
  - intros e. rewrite play_round_unfold. apply play_round_from_raises.
  - intros e. unfold play. rewrite bind_unfold. cbn. case_decide.
    + intros [= <-]. auto.
    + pose proof (play_rounds_raises gm (range (game_time gm)) u w e) as H'.
      destruct (play_rounds gm (range (game_time gm)) u w); cbn in *.
      intros Hr. destruct (H' Hr); auto.
Qed.

(** X12. Nothing to play: a round of a universe without bots returns
    [True] and does nothing; with as many registered teams as the
    universe has, a game of no round (a [game_time] of zero or less) and
    a game of a universe without bots return and do nothing. *)
Theorem nothing_to_play gm gt u w :
  (bots u = [] → play_round gm gt u w = Run (Ok true) u w []) ∧
  (length (player_teams gm) = length (teams u) →
   (game_time gm ≤ 0)%Z → play gm u w = Run (Ok tt) u w []) ∧
  (length (player_teams gm) = length (teams u) →
   bots u = [] → play gm u w = Run (Ok tt) u w []).
Proof.
  assert (bots u = [] → ∀ gt', play_round gm gt' u w = Run (Ok true) u w [])
    as Hround.
  { intros Hb gt'. rewrite play_round_unfold. by rewrite Hb. }
  split; [auto|]. split.
  - intros Hlen Hgt. unfold play. rewrite bind_unfold. cbn.
    case_decide; [done|]. unfold range.
    by replace (Z.to_nat (game_time gm)) with 0 by lia.
  - intros Hlen Hb. unfold play. rewrite bind_unfold. cbn.
    case_decide; [done|].
    assert (∀ rounds, play_rounds gm rounds u w = Run (Ok tt) u w []) as Hall.
    { induction rounds as [|gt' rest IH]; [done|].
      rewrite play_rounds_cons, Hround by done. cbn. by rewrite IH. }
    by rewrite Hall.
Qed.

(** X13. A [TeamWins] ends the game: when the rounds before round [n]
    have returned [True] and in round [n] the events of a move contain a
    [TeamWins], [play] returns after this round; nothing of a later
    round is played. *)
Theorem TeamWins_ends_play gm u w n :
  length (player_teams gm) = length (teams u) →
  n < Z.to_nat (game_time gm) →
  (∀ k, k < n → returned (round_run gm k u w) = Ok true) →
  (∃ i events, BotMoved i events ∈ trace (round_run gm n u w) ∧
               TeamWins_in events = true) →
  play gm u w = after_rounds gm (S n) u w.
Proof.
  intros Hlen Hn Htrue (i & events & Hin & Hwin).
  assert (returned (round_run gm n u w) = Ok false) as Hfalse.
  { unfold round_run in *. cbv zeta in *.
    rewrite play_round_unfold in *.
    set (a := after_rounds gm n u w) in *.
    destruct (play_round_from_spec gm (Z.of_nat n)
                (length (bots (universe_after a))) 0
                (universe_after a) (world_after a)) as (_ & _ & Hc & _).
    cbv zeta in Hc.
    destruct (returned (play_round_from gm (Z.of_nat n)
                (seq 0 (length (bots (universe_after a))))
                (universe_after a) (world_after a))) as [[]|e] eqn:Hr;
      [|done|]; rewrite (Hc ltac:(done) i events Hin) in Hwin; done. }
  unfold play. rewrite bind_unfold. cbn. case_decide; [done|].
  pose proof (play_rounds_spec gm u w (Z.to_nat (game_time gm)) 0 n
                ltac:(lia) ltac:(intros; apply Htrue; lia)) as Hspec.
  cbv zeta in Hspec.
  cbn [after_rounds universe_after world_after trace] in Hspec.
  unfold range.
  destruct (play_rounds gm (Z.of_nat <$> seq 0 (Z.to_nat (game_time gm))) u w).
  apply Hspec; [lia|done].
Qed.

(** X18. The body of the first handler (lines 110 to 117), where
    staying is a legal move of the bot: it calls [move_bot] once, with a
    legal move, which is not [stop] when the bot has another legal move;
    when the board accepts the move, the events are those of the move
    followed by one [TimeoutEvent] of the team of the bot; when the
    board raises, so does the handler, and the universe is as it was. *)
Theorem fallback_handler_moves i bot u w :
  stop ∈ dom (get_legal_moves u (current_pos bot)) →
  ∃ move : Move,
    move ∈ dom (get_legal_moves u (current_pos bot)) ∧
    ((∃ m', m' ∈ dom (get_legal_moves u (current_pos bot)) ∧ m' ≠ stop) →
     move ≠ stop) ∧
    trace (fallback_handler i bot u w) = [MoveBot i move] ∧
    (∀ events u', move_bot u i move = Ok (events, u') →
       returned (fallback_handler i bot u w)
       = Ok (events ++ [TimeoutEvent (team_index bot)]) ∧
       universe_after (fallback_handler i bot u w) = u') ∧
    (∀ e, move_bot u i move = Raise e →
       returned (fallback_handler i bot u w) = Raise e ∧
       universe_after (fallback_handler i bot u w) = u).
Proof.
  intros Hstop.
  destruct (fallback_handler_run i bot u w Hstop)
    as (candidates & move & _ & Hiff & Hmove & ->).
  apply list_elem_of_lookup_2, Hiff in Hmove as [Hlegal Honly].
  exists move. split; [done|]. split.
  - intros (m' & Hm' & Hne) ->. by apply Hne, Honly.
  - destruct (move_bot u i move) as [[events u']|e]; cbn.
    + split; [done|]. split; [by intros ?? [= <- <-]|done].
    + split; [done|]. split; [done|by intros ? [= <-]].
Qed.

End WithCollaborators.

(** *** Runs in the arena and in the corridor *)

(** The first team answers the move 1, which the board reports as a
    timeout of team 1. *)
Lemma accepted_move_is_applied_witness :
  returned (@bot_move Arena.arena (Arena.arena_master [1; 1] [7]) 0 0
              Arena.first_bot Arena.two_teams 0)
  = Ok [TimeoutEvent 1] ∧
  universe_after (@bot_move Arena.arena (Arena.arena_master [1; 1] [7]) 0 0
                    Arena.first_bot Arena.two_teams 0)
  = Arena.two_teams ∧
  trace (@bot_move Arena.arena (Arena.arena_master [1; 1] [7]) 0 0
           Arena.first_bot Arena.two_teams 0)
  = [@GetMove Arena.arena 1 0 Arena.two_teams;
     @MoveBot Arena.arena 0 1;
     @BotMoved Arena.arena 0 [TimeoutEvent 1]]
    ++ @broadcasts Arena.arena (Arena.arena_master [1; 1] [7]) 0 0
         Arena.two_teams [TimeoutEvent 1].
Proof.
  apply (@accepted_move_is_applied Arena.arena
           (Arena.arena_master [1; 1] [7]) 0 0 Arena.first_bot 1
           Arena.two_teams 0 1 [TimeoutEvent 1] Arena.two_teams
           eq_refl eq_refl eq_refl).
  intros t Ht. apply list_elem_of_singleton in Ht.
  injection Ht as ->. cbn. lia.
Defined.

(** The first team answers the move 9: there is no team 9. *)
Lemma unknown_timeout_team_witness :
  returned (@bot_move Arena.arena (Arena.arena_master [9; 1] [7]) 0 0
              Arena.first_bot Arena.two_teams 0)
  = Raise (IndexError OutOfRange) ∧
  universe_after (@bot_move Arena.arena (Arena.arena_master [9; 1] [7]) 0 0
                    Arena.first_bot Arena.two_teams 0)
  = Arena.two_teams ∧
  trace (@bot_move Arena.arena (Arena.arena_master [9; 1] [7]) 0 0
           Arena.first_bot Arena.two_teams 0)
  = [@GetMove Arena.arena 9 0 Arena.two_teams;
     @MoveBot Arena.arena 0 9].
Proof.
  apply (@unknown_timeout_team Arena.arena
           (Arena.arena_master [9; 1] [7]) 0 0 Arena.first_bot 9
           Arena.two_teams 0 9 [TimeoutEvent 9] Arena.two_teams
           eq_refl eq_refl eq_refl).
  exists 9. split; [left|]. cbn. lia.
Defined.

(** A round of a game master without a registered team. *)
Lemma unregistered_team_witness :
  @play_round Arena.arena (Arena.arena_master [] [7]) 0 Arena.two_teams 0
  = @Run Arena.arena _ (Raise (IndexError OutOfRange))
      Arena.two_teams 0 [].
Proof.
  exact (proj2 (@unregistered_team Arena.arena
                  (Arena.arena_master [] [7]) 0 Arena.two_teams 0)
           Arena.first_bot eq_refl eq_refl).
Defined.

(** In the corridor the second bot steps on the food in the first round
    of five. *)
Lemma TeamWins_ends_play_witness :
  @play Corridor.collaborators
    (Corridor.master (Corridor.Moves 1) (Corridor.Moves (-1)) 5 [7])
    (Corridor.two_bots false) 0
  = @after_rounds Corridor.collaborators
      (Corridor.master (Corridor.Moves 1) (Corridor.Moves (-1)) 5 [7]) 1
      (Corridor.two_bots false) 0.
Proof.
  apply (@TeamWins_ends_play Corridor.collaborators
           (Corridor.master (Corridor.Moves 1) (Corridor.Moves (-1)) 5 [7])
           (Corridor.two_bots false) 0 0 eq_refl).
  - cbn. lia.
  - intros k Hk. lia.
  - apply winning_move_exists. vm_compute. reflexivity.
Defined.

(** In the corridor the second bot has the one legal move [-1] besides
    [stop]. *)
Lemma fallback_handler_moves_witness :
  ∃ move : Z,
    move ∈ dom (Corridor.legal_moves (Corridor.two_bots false) 3) ∧
    ((∃ m', m' ∈ dom (Corridor.legal_moves (Corridor.two_bots false) 3) ∧
            m' ≠ 0%Z) → move ≠ 0%Z) ∧
    trace (@fallback_handler Corridor.collaborators 1 Corridor.right_bot
             (Corridor.two_bots false) 0)
    = [@MoveBot Corridor.collaborators 1 move] ∧
    (∀ events u',
       Corridor.step (Corridor.two_bots false) 1 move = Ok (events, u') →
       returned (@fallback_handler Corridor.collaborators 1
                   Corridor.right_bot (Corridor.two_bots false) 0)
       = Ok (events ++ [TimeoutEvent 1]) ∧
       universe_after (@fallback_handler Corridor.collaborators 1
                         Corridor.right_bot (Corridor.two_bots false) 0)
       = u') ∧
    (∀ e, Corridor.step (Corridor.two_bots false) 1 move = Raise e →
       returned (@fallback_handler Corridor.collaborators 1
                   Corridor.right_bot (Corridor.two_bots false) 0)
       = Raise e ∧
       universe_after (@fallback_handler Corridor.collaborators 1
                         Corridor.right_bot (Corridor.two_bots false) 0)
       = Corridor.two_bots false).
Proof.
  apply (@fallback_handler_moves Corridor.collaborators 1 Corridor.right_bot
           (Corridor.two_bots false) 0).
  apply elem_of_dom. exists 3%Z. reflexivity.
Defined.

End GameMasterMore.

(* ===================================================================== *)
(** ** Properties of setting a game up *)
(* ===================================================================== *)

Module SetupSpec.
Import GameMaster GameMasterSpec Setup.

Section WithRegistrars.
Context {C : Collaborators} {R : Registrars C}.
Implicit Types (u : Universe) (w : World) (gm : GameMaster).
Implicit Types (team : PlayerTeam) (viewer : Viewer).

Lemma register_team_unfold gm team u w :
  register_team gm team u w =
  let gm' := {| game_time := game_time gm;
                number_bots := number_bots gm;
                player_teams := player_teams gm ++ [team];
                viewers := viewers gm |} in
  match teams u !! length (player_teams gm) with
  | None => SetupRun (Raise IndexError) gm' w []
  | Some t =>
      SetupRun (Ok tt) gm'
               (_set_initial team u (_set_bot_ids team (team_bots t) w))
               (told u team t)
  end.
Proof.
  unfold register_team. cbn [player_teams].
  rewrite length_app. cbn [length].
  by replace (length (player_teams gm) + 1 - 1)
    with (length (player_teams gm)) by lia.
Qed.

(** X14. [register_team] appends the team to the registered teams in
    every case and changes no other attribute.  It returns exactly when
    the universe has a team for it, the one at the index of the number
    of teams registered before: the new team is then told the bots of
    that team, then the universe.  Otherwise it raises [IndexError]
    without a call, and the team stays registered. *)
Theorem register_team_spec gm team u w :
  let r := register_team gm team u w in
  player_teams (master_after r) = player_teams gm ++ [team] ∧
  viewers (master_after r) = viewers gm ∧
  game_time (master_after r) = game_time gm ∧
  number_bots (master_after r) = number_bots gm ∧
  (registered r = Ok tt ↔ length (player_teams gm) < length (teams u)) ∧
  (∀ t, teams u !! length (player_teams gm) = Some t →
     registered r = Ok tt ∧ calls r = told u team t ∧
     setup_world r
     = _set_initial team u (_set_bot_ids team (team_bots t) w)) ∧
  (length (teams u) ≤ length (player_teams gm) →
     registered r = Raise IndexError ∧ calls r = [] ∧ setup_world r = w).
Proof.
  cbv zeta. rewrite register_team_unfold. cbv zeta.
  destruct (teams u !! length (player_teams gm)) as [t|] eqn:Ht; cbn.
  - apply lookup_lt_Some in Ht as Hlt. split_and!; try done.
    + by intros ? [= <-].
    + lia.
  - apply lookup_ge_None in Ht as Hge. split_and!; try done.
    split; [done|lia].
Qed.

(** X15. After a [register_team] that has raised, the game master has
    more registered teams than the universe has teams: [play] raises its
    [IndexError] at once, whatever the world. *)
Theorem failed_register_team_blocks_play gm team u w e :
  registered (register_team gm team u w) = Raise e →
  e = IndexError ∧
  ∀ w', play (master_after (register_team gm team u w)) u w'
        = Run (Raise (GameMaster.IndexError
                        (TeamMismatch (S (length (player_teams gm)))
                                      (length (teams u))))) u w' [].
Proof.
  rewrite register_team_unfold. cbv zeta.
  destruct (teams u !! length (player_teams gm)) as [t|] eqn:Ht; cbn;
    [done|].
  intros [= <-]. split; [done|]. intros w'.
  apply lookup_ge_None in Ht.
  unfold play. rewrite bind_unfold. cbn.
  rewrite length_app. cbn [length].
  replace (length (player_teams gm) + 1) with (S (length (player_teams gm)))
    by lia.
  case_decide; [done|lia].
Qed.

(** Registering a list of teams on top of those registered. *)
Lemma register_teams_spec (new_teams : list PlayerTeam) u : ∀ gm w,
  let r := register_teams gm new_teams u w in
  let k := length (player_teams gm) in
  viewers (master_after r) = viewers gm ∧
  game_time (master_after r) = game_time gm ∧
  (k + length new_teams ≤ length (teams u) →
     registered r = Ok tt ∧
     player_teams (master_after r) = player_teams gm ++ new_teams ∧
     calls r = mjoin (zip_with (told u) new_teams (drop k (teams u)))) ∧
  (k ≤ length (teams u) < k + length new_teams →
     registered r = Raise IndexError ∧
     player_teams (master_after r)
     = player_teams gm ++ take (S (length (teams u) - k)) new_teams).
Proof.
  induction new_teams as [|team rest IH]; intros gm w; cbv zeta.
  { cbn. split; [done|]. split; [done|]. split.
    - intros _. by rewrite app_nil_r.
    - lia. }
  cbn [register_teams]. cbv zeta.
  rewrite register_team_unfold. cbv zeta.
  destruct (teams u !! length (player_teams gm)) as [t|] eqn:Ht;
    cbn [registered master_after setup_world calls].
  - apply lookup_lt_Some in Ht as Hlt.
    specialize (IH {| game_time := game_time gm;
                      number_bots := number_bots gm;
                      player_teams := player_teams gm ++ [team];
                      viewers := viewers gm |}
                   (_set_initial team u (_set_bot_ids team (team_bots t) w))).
    cbv zeta in IH. cbn [player_teams viewers game_time] in IH.
    rewrite length_app in IH. cbn [length] in IH.
    destruct IH as (IHv & IHg & IHok & IHfail).
    split; [exact IHv|]. split; [exact IHg|]. split.
    + intros Hlen. cbn [length] in Hlen.
      destruct IHok as (Hr & Hpt & Hcalls); [lia|].
      split; [exact Hr|]. split.
      * rewrite Hpt. by rewrite <-(assoc_L (++)).
      * rewrite Hcalls, (drop_S _ t _ Ht). cbn [zip_with mjoin list_join].
        by replace (length (player_teams gm) + 1)
          with (S (length (player_teams gm))) by lia.
    + intros Hlen. cbn [length] in Hlen.
      destruct IHfail as (Hr & Hpt); [lia|].
      split; [exact Hr|]. rewrite Hpt, <-(assoc_L (++)).
      replace (S (length (teams u) - length (player_teams gm)))
        with (S (S (length (teams u) - (length (player_teams gm) + 1))))
        by lia.
      done.
  - apply lookup_ge_None in Ht as Hge.
    split; [done|]. split; [done|]. split; [cbn [length]; lia|].
    intros Hlen. cbn [length] in Hlen. split; [done|]. cbn [player_teams].
    by replace (length (teams u) - length (player_teams gm)) with 0 by lia.
Qed.

(** X16. Registering teams on a new game master, one after the other:
    with no more teams than the universe has, each registration returns,
    the registered teams are the given ones in order, and the team at
    each position has been told the bots of the team of the universe at
    that position; with as many, [play] passes its check and goes on to
    the rounds; with more, the registration of the first team in excess
    raises [IndexError] and leaves this team registered. *)
Theorem register_teams_on_new_master (layout : Layout) (number_bots : nat)
    (rounds : Z) (new_teams : list PlayerTeam) w :
  let gm := (GameMaster_init layout number_bots rounds).1 in
  let u := (GameMaster_init layout number_bots rounds).2 in
  let r := register_teams gm new_teams u w in
  (length new_teams ≤ length (teams u) →
     registered r = Ok tt ∧ player_teams (master_after r) = new_teams ∧
     calls r = mjoin (zip_with (told u) new_teams (teams u))) ∧
  (length new_teams = length (teams u) →
     ∀ w', play (master_after r) u w'
           = play_rounds (master_after r) (range rounds) u w') ∧
  (length (teams u) < length new_teams →
     registered r = Raise IndexError ∧
     player_teams (master_after r)
     = take (S (length (teams u))) new_teams).
Proof.
  cbv zeta. cbn [fst snd GameMaster_init].
  set (gm := {| game_time := rounds;
                GameMaster.number_bots := number_bots;
                player_teams := []; viewers := [] |}).
  set (u := create_CTFUniverse layout number_bots).
  destruct (register_teams_spec new_teams u gm w) as (_ & Hg & Hok & Hfail).
  cbv zeta in *. change (player_teams gm) with (@nil PlayerTeam) in *.
  change (game_time gm) with rounds in *.
  cbn [length app drop Nat.add] in *.
  split; [|split].
  - intros Hlen. apply Hok. lia.
  - intros Hlen w'. destruct Hok as (_ & Hpt & _); [lia|].
    unfold play. rewrite bind_unfold. cbn. rewrite Hpt, Hg.
    case_decide; [done|].
    by destruct (play_rounds _ _ u w').
  - intros Hlen. destruct Hfail as [-> ->]; [lia|].
    split; [done|]. do 2 f_equal. lia.
Qed.

(** X17. [register_viewer] refuses a viewer whose class has not
    overridden [observe]: it raises [TypeError], makes no call and
    leaves the game master as it was.  Any other viewer is given the
    universe and is appended to the viewers, so that every broadcast of
    the game master is the broadcast as before followed by the call to
    the new viewer.  The viewers of a game master that is set up by
    registrations all have overridden [observe]. *)
Theorem register_viewer_spec gm viewer u w :
  let r := register_viewer gm viewer u w in
  (overrides_observe viewer = false →
     r = SetupRun (Raise (TypeError viewer)) gm w []) ∧
  (overrides_observe viewer = true →
     registered r = Ok tt ∧
     viewers (master_after r) = viewers gm ++ [viewer] ∧
     player_teams (master_after r) = player_teams gm ∧
     game_time (master_after r) = game_time gm ∧
     calls r = [ViewerSetInitial viewer u] ∧
     setup_world r = set_initial viewer u w ∧
     ∀ gt i u' events,
       broadcasts (master_after r) gt i u' events
       = broadcasts gm gt i u' events ++ [Observe viewer gt i u' events]) ∧
  (Forall (λ v, overrides_observe v = true) (viewers gm) →
   Forall (λ v, overrides_observe v = true) (viewers (master_after r))).
Proof.
  cbv zeta. unfold register_viewer.
  destruct (overrides_observe viewer) eqn:Ho; cbn.
  - split; [done|]. split.
    + intros _. repeat (split; [done|]). intros gt i u' events.
      unfold broadcasts. cbn. by rewrite fmap_app.
    + intros Hall. apply Forall_app. split; [done|]. by constructor.
  - split; [done|]. split; [done|]. done.
Qed.

End WithRegistrars.

(** *** Setting a game up in the arena *)

(** A third team for a universe of two teams. *)
Lemma failed_register_team_blocks_play_witness :
  @IndexError nat = IndexError ∧
  ∀ w',
    @play Arena.arena
      (master_after (@register_team Arena.arena Arena.registrars
                       (Arena.arena_master [1; 1] []) 5 Arena.two_teams 0))
      Arena.two_teams w'
    = @Run Arena.arena _
        (Raise (GameMaster.IndexError (TeamMismatch 3 2)))
        Arena.two_teams w' [].
Proof.
  exact (@failed_register_team_blocks_play Arena.arena
           Arena.registrars (Arena.arena_master [1; 1] []) 5 Arena.two_teams 0
           IndexError eq_refl).
Defined.

(** The teams 5 and 6 registered on a new game master of the arena. *)
Lemma register_teams_on_new_master_witness :
  registered (@register_teams Arena.arena Arena.registrars
                (@GameMaster_init Arena.arena Arena.registrars
                   Arena.two_teams 4 3).1 [5; 6] Arena.two_teams 0)
  = Ok tt ∧
  player_teams (master_after
                  (@register_teams Arena.arena Arena.registrars
                     (@GameMaster_init Arena.arena Arena.registrars
                        Arena.two_teams 4 3).1 [5; 6] Arena.two_teams 0))
  = [5; 6] ∧
  calls (@register_teams Arena.arena Arena.registrars
           (@GameMaster_init Arena.arena Arena.registrars
              Arena.two_teams 4 3).1 [5; 6] Arena.two_teams 0)
  = [@SetBotIds Arena.arena 5 [0; 2];
     @SetInitial Arena.arena 5 Arena.two_teams;
     @SetBotIds Arena.arena 6 [1; 3];
     @SetInitial Arena.arena 6 Arena.two_teams].
Proof.
  apply (proj1 (@register_teams_on_new_master Arena.arena
                  Arena.registrars Arena.two_teams 4 3 [5; 6] 0)).
  cbn. lia.
Defined.

End SetupSpec.

(* ===================================================================== *)
(** ** The calls of a round, counted and addressed *)
(* ===================================================================== *)

Module TracesSpec.
Import GameMaster GameMasterSpec Traces.

Section WithCollaborators.
Context {C : Collaborators}.
Implicit Types (u : Universe) (w : World) (gm : GameMaster) (gt : Z).
Implicit Types (i : nat) (bot : Bot Pos) (e : exn) (a : action).
Implicit Types (events : list (UniverseEvent BoardEvent)).

(** The four traces an iteration can leave. *)
Lemma bot_move_trace gm gt i bot u w :
  let s := bot_move gm gt i bot u w in
  ((∃ e, returned s = Raise e) ∧ trace s = []) ∨
  (∃ pt, pt ∈ player_teams gm ∧
     (((∃ e, returned s = Raise e) ∧ trace s = [GetMove pt (index bot) u]) ∨
      (∃ move,
         ((∃ e, returned s = Raise e) ∧
          trace s = [GetMove pt (index bot) u; MoveBot i move]) ∨
         (∃ events,
            returned s = Ok events ∧
            trace s = [GetMove pt (index bot) u; MoveBot i move;
                       BotMoved i events]
                      ++ broadcasts gm gt i (universe_after s) events)))).
Proof.
  unfold bot_move. cbv zeta. rewrite bind_unfold.
  destruct (getitem_cases (player_teams gm) (team_index bot) u w)
    as [(pt & Hpt & ->)|[_ ->]]; cbn; [|left; eauto].
  right. exists pt. split; [by eapply list_elem_of_lookup_2|].
  rewrite bind_unfold, resolve_cases.
  destruct (_get_move pt (index bot) u w) as [[move|e'] w1]; cbn;
    [|left; eauto].
  right. exists move.
  destruct (move_bot u i move) as [[events u']|e']; cbn; [|left; eauto].
  rewrite bind_unfold.
  destruct (lookup_timeout_teams_cases (filter_TimeoutEvent events) u' w1)
    as [-> | ->]; cbn; [|left; eauto].
  rewrite bind_unfold. cbn. rewrite bind_unfold.
  destruct (broadcast_run (viewers gm) gt i events u' w1) as [w' ->].
  cbn. right. exists events. by rewrite app_nil_r.
Qed.

Lemma count_app kind (tr tr' : list action) :
  count kind (tr ++ tr') = count kind tr + count kind tr'.
Proof. unfold count. by rewrite List.filter_app, length_app. Qed.

Lemma count_broadcasts gm gt i u events :
  count is_Observe (broadcasts gm gt i u events) = length (viewers gm) ∧
  count is_GetMove (broadcasts gm gt i u events) = 0 ∧
  count is_MoveBot (broadcasts gm gt i u events) = 0 ∧
  count is_BotMoved (broadcasts gm gt i u events) = 0 ∧
  ∀ j, count (is_move_of j) (broadcasts gm gt i u events) = 0.
Proof.
  unfold broadcasts, count.
  induction (viewers gm) as [|v vs (IH1 & IH2 & IH3 & IH4 & IH5)]; [done|].
  cbn. rewrite IH1, IH2, IH3, IH4. split_and!; try done.
Qed.

(** The counts of one iteration. *)
Lemma bot_move_counts gm gt i bot u w :
  let tr := trace (bot_move gm gt i bot u w) in
  count is_GetMove tr ≤ 1 ∧
  count is_MoveBot tr ≤ count is_GetMove tr ∧
  count is_BotMoved tr ≤ count is_MoveBot tr ∧
  count is_Observe tr = length (viewers gm) * count is_BotMoved tr ∧
  count (is_move_of i) tr = count is_BotMoved tr ∧
  ∀ j, j ≠ i → count (is_move_of j) tr = 0.
Proof.
  cbv zeta.
  destruct (bot_move_trace gm gt i bot u w)
    as [[_ ->]|(pt & _ & [[_ ->]|(move & [[_ ->]|(events & _ & ->)])])].
  - cbn. split_and!; try done; lia.
  - cbn. split_and!; try done; lia.
  - unfold count. cbn. split_and!; try done; lia.
  - rewrite !count_app.
    destruct (count_broadcasts gm gt i
                (universe_after (bot_move gm gt i bot u w)) events)
      as (-> & -> & -> & -> & Hj).
    rewrite Hj. unfold count. cbn. rewrite bool_decide_true by done. cbn.
    split_and!; try lia.
    intros j Hne. rewrite bool_decide_false by done. apply (Hj j).
Qed.

Lemma play_round_from_counts gm gt len : ∀ s u w,
  let tr := trace (play_round_from gm gt (seq s len) u w) in
  count is_GetMove tr ≤ len ∧
  count is_MoveBot tr ≤ count is_GetMove tr ∧
  count is_BotMoved tr ≤ count is_MoveBot tr ∧
  count is_Observe tr = length (viewers gm) * count is_BotMoved tr ∧
  (∀ j, count (is_move_of j) tr ≤ 1) ∧
  (∀ j, j < s → count (is_move_of j) tr = 0).
Proof.
  induction len as [|len IH]; intros s u w; cbv zeta.
  { cbn. split_and!; try done; try lia. }
  cbn [seq]. rewrite play_round_from_cons.
  destruct (bots u !! s) as [bot|].
  2:{ cbn. split_and!; try done; try lia. }
  cbv zeta.
  pose proof (bot_move_counts gm gt s bot u w) as Hstep. cbv zeta in Hstep.
  destruct Hstep as (H1 & H2 & H3 & H4 & H5 & H6).
  destruct (bot_move gm gt s bot u w) as [[events|e] u1 w1 tr1];
    cbn [returned universe_after world_after trace] in *.
  2:{ split_and!; try lia.
      - intros j. destruct (decide (j = s)) as [->|Hne];
          [lia|rewrite H6 by done; lia].
      - intros j Hj. apply H6. lia. }
  assert (∀ j, count (is_move_of j) tr1 ≤ 1) as H7.
  { intros j. destruct (decide (j = s)) as [->|Hne];
      [lia|rewrite H6 by done; lia]. }
  destruct (TeamWins_in events);
    cbn [returned universe_after world_after trace].
  { split_and!; try lia; [done|]. intros j Hj. apply H6. lia. }
  destruct (IH (S s) u1 w1) as (I1 & I2 & I3 & I4 & I5 & I6).
  rewrite !count_app. split_and!; try lia.
  - intros j. rewrite count_app.
    destruct (decide (j = s)) as [->|Hne].
    + rewrite (I6 s) by lia. specialize (H7 s). lia.
    + rewrite H6 by done. specialize (I5 j). lia.
  - intros j Hj. rewrite count_app, H6, I6 by lia. done.
Qed.

(** X19. What a round never does: it asks for at most one move per bot
    of the universe, moves the board at most once per answer, completes
    at most one move per moved bot and no more than one move of the bot
    at any position, and calls [observe] as many times as there are
    registered viewers for each completed move. *)
Theorem play_round_counts gm gt u w :
  let tr := trace (play_round gm gt u w) in
  count is_GetMove tr ≤ length (bots u) ∧
  count is_MoveBot tr ≤ count is_GetMove tr ∧
  count is_BotMoved tr ≤ count is_MoveBot tr ∧
  count is_Observe tr = length (viewers gm) * count is_BotMoved tr ∧
  ∀ i, count (is_move_of i) tr ≤ 1.
Proof.
  cbv zeta. rewrite play_round_unfold.
  destruct (play_round_from_counts gm gt (length (bots u)) 0 u w)
    as (H1 & H2 & H3 & H4 & H5 & _).
  done.
Qed.

(** *** Whom the game master calls *)

Lemma addressed_weaken gm (P Q : Z → Prop) a :
  (∀ z, P z → Q z) → addressed gm P a → addressed gm Q a.
Proof. intros HPQ. destruct a; cbn; intuition. Qed.

Lemma bot_move_addressed gm gt i bot u w :
  Forall (addressed gm (λ gt', gt' = gt)) (trace (bot_move gm gt i bot u w)).
Proof.
  destruct (bot_move_trace gm gt i bot u w)
    as [[_ ->]|(pt & Hpt & [[_ ->]|(move & [[_ ->]|(events & _ & ->)])])].
  - constructor.
  - by repeat constructor.
  - by repeat constructor.
  - apply Forall_app. split; [by repeat constructor|].
    unfold broadcasts. apply Forall_fmap, Forall_forall.
    intros v Hv. by split.
Qed.

Lemma play_round_from_addressed gm gt positions : ∀ u w,
  Forall (addressed gm (λ gt', gt' = gt))
         (trace (play_round_from gm gt positions u w)).
Proof.
  induction positions as [|i rest IH]; intros u w; [constructor|].
  rewrite play_round_from_cons.
  destruct (bots u !! i) as [bot|]; [|constructor]. cbv zeta.
  pose proof (bot_move_addressed gm gt i bot u w) as Hstep.
  destruct (bot_move gm gt i bot u w) as [[events|e] u1 w1 tr1]; cbn in *;
    [|done].
  destruct (TeamWins_in events); [done|]. cbn.
  apply Forall_app. split; [done|apply IH].
Qed.

Lemma play_rounds_addressed gm (rounds : list Z) : ∀ u w,
  Forall (addressed gm (λ gt', gt' ∈ rounds))
         (trace (play_rounds gm rounds u w)).
Proof.
  induction rounds as [|gt rest IH]; intros u w; [constructor|].
  rewrite play_rounds_cons. cbv zeta.
  pose proof (play_round_from_addressed gm gt (seq 0 (length (bots u))) u w)
    as Hround.
  rewrite <-play_round_unfold in Hround.
  assert (Forall (addressed gm (λ gt', gt' ∈ gt :: rest))
                 (trace (play_round gm gt u w))) as Hround'.
  { eapply Forall_impl; [exact Hround|]. intros a.
    apply addressed_weaken. intros z ->. left. }
  destruct (play_round gm gt u w) as [[[]|e] u1 w1 tr1]; cbn in *;
    [|done..].
  apply Forall_app. split; [done|].
  eapply Forall_impl; [apply IH|]. intros a.
  apply addressed_weaken. intros z Hz. by right.
Qed.

(** X20. Whom the game master calls: every player team asked for a
    move is a registered team and every viewer called is a registered
    viewer; a round calls the viewers with its own round number, and
    [play] with round numbers from [0] to [game_time - 1] only. *)
Theorem calls_are_addressed gm gt u w :
  Forall (addressed gm (λ gt', gt' = gt)) (trace (play_round gm gt u w)) ∧
  Forall (addressed gm (λ gt', (0 ≤ gt' < game_time gm)%Z))
         (trace (play gm u w)).
Proof.
  split.
  - rewrite play_round_unfold. apply play_round_from_addressed.
  - unfold play. rewrite bind_unfold. cbn. case_decide; [constructor|].
    pose proof (play_rounds_addressed gm (range (game_time gm)) u w) as H'.
    destruct (play_rounds gm (range (game_time gm)) u w); cbn in *.
    eapply Forall_impl; [exact H'|]. intros a.
    apply addressed_weaken. intros z Hz. unfold range in Hz.
    apply list_elem_of_fmap in Hz as (n & -> & Hn).
    apply elem_of_seq in Hn. lia.
Qed.

End WithCollaborators.
End TracesSpec.

(* ===================================================================== *)
(** ** The order of the calls of a round *)
(* ===================================================================== *)

Module RoundsSpec.
Import GameMaster GameMasterSpec GameMasterMore Rounds.

Section WithCollaborators.
Context {C : Collaborators}.
Implicit Types (u : Universe) (w : World) (gm : GameMaster) (gt : Z).
Implicit Types (i : nat) (bot : Bot Pos) (e : exn) (a : action).
Implicit Types (events : list (UniverseEvent BoardEvent)).
Implicit Types (m : moved_bot) (ms : list moved_bot).

Lemma broadcast_world (vs : list Viewer) gt i events u w :
  broadcast vs gt i events u w =
  Run (Ok tt) u (foldl (λ w v, observe v gt i u events w) w vs)
      ((λ v, Observe v gt i u events) <$> vs).
Proof.
  revert w. induction vs as [|v vs IH]; intros w; [done|].
  cbn [broadcast]. rewrite bind_unfold. cbn. by rewrite IH.
Qed.

(** One iteration is a completed move, with the calls of its segment,
    or an interrupted one, with its calls and no others. *)
Lemma bot_move_cases gm gt i bot u w :
  bots u !! i = Some bot →
  let s := bot_move gm gt i bot u w in
  (∃ m, mb_universe m = u ∧ mb_world m = w ∧ is_move_at gm i m ∧
        returned s = Ok (mb_events m) ∧
        universe_after s = mb_after m ∧
        world_after s = world_after_move gm gt i m ∧
        trace s = segment gm gt i m) ∨
  ((∃ e, returned s = Raise e) ∧ interrupted gm i u w (trace s)).
Proof.
  intros Hbot. unfold bot_move. cbv zeta. rewrite bind_unfold.
  destruct (getitem_cases (player_teams gm) (team_index bot) u w)
    as [(pt & Hpt & ->)|[Hpt ->]]; cbn.
  2:{ right. split; [eauto|]. exists bot. split; [done|]. by left. }
  rewrite bind_unfold, resolve_cases.
  destruct (_get_move pt (index bot) u w) as [[move|e'] w1] eqn:Hget; cbn.
  2:{ right. split; [eauto|]. exists bot. split; [done|]. right.
      exists pt. split; [done|]. left. rewrite Hget. eauto. }
  destruct (move_bot u i move) as [[events u']|e'] eqn:Hmove; cbn.
  2:{ right. split; [eauto|]. exists bot. split; [done|]. right.
      exists pt. split; [done|]. right. exists move. rewrite Hget.
      split; [done|]. split; [done|]. left. eauto. }
  rewrite bind_unfold.
  destruct (decide (Forall (λ t, t < length (teams u'))
                           (filter_TimeoutEvent events))) as [Hall|Hnot].
  - rewrite lookup_timeout_teams_Ok by done. cbn.
    rewrite bind_unfold. cbn. rewrite bind_unfold, broadcast_world. cbn.
    left.
    exists {| mb_bot := bot; mb_team := pt; mb_universe := u; mb_world := w;
              mb_move := move; mb_events := events; mb_after := u' |}.
    unfold is_move_at, world_after_move, segment. cbn. rewrite Hget. cbn.
    rewrite app_nil_r. split_and!; try done.
    intros t Ht. rewrite Forall_forall in Hall. apply Hall.
    by apply elem_of_filter_TimeoutEvent.
  - apply not_Forall_Exists in Hnot; [|apply _].
    rewrite lookup_timeout_teams_Raise.
    2:{ eapply Exists_impl; [exact Hnot|]. cbn. intros t Ht. lia. }
    cbn. right. split; [eauto|]. exists bot. split; [done|]. right.
    exists pt. split; [done|]. right. exists move. rewrite Hget.
    split; [done|]. split; [done|]. right. exists events, u'.
    split; [done|]. apply Exists_exists in Hnot as (t & Hin & Ht).
    exists t. split; [by apply elem_of_filter_TimeoutEvent|]. cbn in Ht. lia.
Qed.

(** The loop over the positions [s .. s+len-1]. *)
Lemma play_round_from_moves gm gt len : ∀ s u w,
  let r := play_round_from gm gt (seq s len) u w in
  ∃ ms,
    moves_from gm gt s u w ms ∧
    match returned r with
    | Ok true =>
        trace r = segments gm gt s ms ∧
        universe_after r = universe_after_moves u ms ∧
        Forall (λ m, TeamWins_in (mb_events m) = false) ms ∧
        (length ms = len ∨
         bots (universe_after_moves u ms) !! (s + length ms) = None)
    | Ok false =>
        trace r = segments gm gt s ms ∧
        universe_after r = universe_after_moves u ms ∧
        ∃ ms' m, ms = ms' ++ [m] ∧ TeamWins_in (mb_events m) = true ∧
                 Forall (λ m, TeamWins_in (mb_events m) = false) ms'
    | Raise _ =>
        length ms < len ∧
        Forall (λ m, TeamWins_in (mb_events m) = false) ms ∧
        ∃ tail,
          trace r = segments gm gt s ms ++ tail ∧
          interrupted gm (s + length ms) (universe_after_moves u ms)
                      (world_after_moves gm gt s w ms) tail
    end.
Proof.
  induction len as [|len IH]; intros s u w; cbv zeta.
  { exists []. cbn. split_and!; try done. by left. }
  cbn [seq]. rewrite play_round_from_cons.
  destruct (bots u !! s) as [bot|] eqn:Hbot.
  2:{ exists []. cbn. split_and!; try done. right. by rewrite Nat.add_0_r. }
  cbv zeta.
  destruct (bot_move_cases gm gt s bot u w Hbot)
    as [(m & Hu & Hw & Hm & Hret & Hua & Hwa & Htr)|[[e He] Hint]].
  2:{ exists []. rewrite He. cbn. split; [done|]. split; [lia|].
      split; [done|]. exists (trace (bot_move gm gt s bot u w)).
      split; [done|]. by rewrite Nat.add_0_r. }
  rewrite Hret, Htr, Hua, Hwa.
  destruct (TeamWins_in (mb_events m)) eqn:Hwin.
  { exists [m]. cbn. rewrite app_nil_r. split_and!; try done.
    exists [], m. by split_and!. }
  destruct (IH (S s) (mb_after m) (world_after_move gm gt s m))
    as (ms & Hms & Hcase).
  exists (m :: ms). split; [by cbn|].
  cbn [returned trace universe_after segments universe_after_moves
       world_after_moves length].
  replace (s + S (length ms)) with (S s + length ms) by lia.
  destruct (returned (play_round_from gm gt (seq (S s) len) (mb_after m)
                        (world_after_move gm gt s m))) as [[]|e].
  - destruct Hcase as (-> & -> & Hno & Hcov). split_and!; try done.
    + by constructor.
    + destruct Hcov as [<-|Hcov]; [by left|by right].
  - destruct Hcase as (-> & -> & ms' & m' & -> & Hw' & Hno).
    split_and!; try done. exists (m :: ms'), m'. split_and!; try done.
    by constructor.
  - destruct Hcase as (Hlen & Hno & tail & -> & Hint).
    split; [lia|]. split; [by constructor|].
    exists tail. split; [by rewrite (assoc_L (++))|done].
Qed.

(** C6. The calls of a round are those of the moves of the bots at the
    positions [0], [1], [2], ... in this order, each player asked in the
    universe the move before has left: for each bot one request to its
    player, one call of [move_bot] with the move the player gave, and
    then at once one call of [observe] per registered viewer, in the
    order of registration, with the round, the position of the bot, the
    universe [move_bot] has left and the events [move_bot] has returned
    for this very move.  When the round returns [True] these are the
    moves of all the bots; when it returns [False] the last of them has
    a [TeamWins]; when it raises, the calls of the one interrupted move
    of the next bot follow, without a call to a viewer. *)
Theorem play_round_broadcast_order gm gt u w :
  let r := play_round gm gt u w in
  ∃ ms : list moved_bot,
    moves_from gm gt 0 u w ms ∧
    match returned r with
    | Ok true =>
        trace r = segments gm gt 0 ms ∧
        universe_after r = universe_after_moves u ms ∧
        Forall (λ m, TeamWins_in (mb_events m) = false) ms ∧
        (length ms = length (bots u) ∨
         bots (universe_after r) !! length ms = None)
    | Ok false =>
        trace r = segments gm gt 0 ms ∧
        universe_after r = universe_after_moves u ms ∧
        ∃ ms' m, ms = ms' ++ [m] ∧ TeamWins_in (mb_events m) = true ∧
                 Forall (λ m, TeamWins_in (mb_events m) = false) ms'
    | Raise _ =>
        length ms < length (bots u) ∧
        Forall (λ m, TeamWins_in (mb_events m) = false) ms ∧
        ∃ tail,
          trace r = segments gm gt 0 ms ++ tail ∧
          interrupted gm (length ms) (universe_after_moves u ms)
                      (world_after_moves gm gt 0 w ms) tail
    end.
Proof.
  cbv zeta. rewrite play_round_unfold.
  destruct (play_round_from_moves gm gt (length (bots u)) 0 u w)
    as (ms & Hms & Hcase).
  exists ms. split; [done|]. cbv zeta in Hcase.
  destruct (returned (play_round_from gm gt (seq 0 (length (bots u))) u w))
    as [[]|e]; [|done..].
  destruct Hcase as (Htr & Hu & Hno & Hcov). split_and!; try done.
  by rewrite Hu.
Qed.

End WithCollaborators.

(** A round of the corridor with two viewers, in which the second bot
    steps on the food. *)
Lemma play_round_broadcast_order_witness :
  ∃ ms : list (@moved_bot Corridor.collaborators),
    @moves_from Corridor.collaborators
      (Corridor.master (Corridor.Moves 1) (Corridor.Moves (-1)) 5 [7; 8])
      0 0 (Corridor.two_bots false) 0 ms ∧
    trace (@play_round Corridor.collaborators
             (Corridor.master (Corridor.Moves 1) (Corridor.Moves (-1)) 5
                              [7; 8])
             0 (Corridor.two_bots false) 0)
    = @segments Corridor.collaborators
        (Corridor.master (Corridor.Moves 1) (Corridor.Moves (-1)) 5 [7; 8])
        0 0 ms ∧
    universe_after
      (@play_round Corridor.collaborators
         (Corridor.master (Corridor.Moves 1) (Corridor.Moves (-1)) 5 [7; 8])
         0 (Corridor.two_bots false) 0)
    = @universe_after_moves Corridor.collaborators
        (Corridor.two_bots false) ms ∧
    ∃ ms' m,
      ms = ms' ++ [m] ∧
      @TeamWins_in Corridor.collaborators (mb_events m) = true ∧
      Forall (λ m, @TeamWins_in Corridor.collaborators (mb_events m)
                   = false) ms'.
Proof.
  destruct (@play_round_broadcast_order Corridor.collaborators
              (Corridor.master (Corridor.Moves 1) (Corridor.Moves (-1)) 5
                               [7; 8])
              0 (Corridor.two_bots false) 0) as (ms & Hms & Hcase).
  assert (returned (@play_round Corridor.collaborators
                      (Corridor.master (Corridor.Moves 1)
                                       (Corridor.Moves (-1)) 5 [7; 8])
                      0 (Corridor.two_bots false) 0) = Ok false) as Hr
    by (vm_compute; reflexivity).
  rewrite Hr in Hcase. exists ms. split; [exact Hms|exact Hcase].
Defined.

End RoundsSpec.
